(** * ramsql: the transactional engine of [engine/agnostic]

    A shallow embedding of [transaction.go] and [relation.go]: relations live
    in a heap of objects addressed by pointers, a transaction carries its lock
    map, its change log and its error latch, and every method of
    [Transaction] is a function on that state.

    Conventions.
    - A Go pointer [*Relation] is a location [loc] into [e_heap].
    - A method that may wait on a mutex or run forever returns [option]:
      [None] stands for "the call does not return" ([r.Lock()] on a mutex
      held elsewhere, an unbounded recursion, a pointer absent from the heap,
      which no Go execution produces).
    - A Go result [(v, error)] is a [result]: [Ok v] or [Err e]; a lone
      [error] is an [option error], [None] for [nil].
    - Error values are kept by kind, with the names that the message
      formats; the text of the message is not modelled.
    - The order in which a [range] statement visits a map is an input of the
      function that contains the loop, where the result depends on it.
    - What the given sources call and do not define is either a parameter
      (section [Planner]) or a definition written from the specification,
      whose comment starts with "Modelled from the spec". *)

From stdpp Require Import gmap strings list fin_maps sorting.
From Stdlib Require Import ZArith.

Set Warnings "-register-all".

Open Scope string_scope.
Open Scope list_scope.

(** ** Go values seen through [reflect] *)

(** [Insert] handles the supplied values only through [reflect.TypeOf],
    [Type.ConvertibleTo] and [Value.Convert]. The engine is verified for
    every value domain offering these. A [Value] is a non-nil [any].
    [Convert] is used as a total function: the call on a supplied value is
    guarded by [ConvertibleTo], the call on the autoincrement counter
    ([ValueOfCounter] is [reflect.ValueOf(attr.nextValue)]) is not, and its
    panic on a column type that an integer does not convert to is outside
    the model. *)
Class GoValues := {
  Value : Type;
  Kind : Type;
  TypeOf : Value → Kind;
  ConvertibleTo : Kind → Kind → bool;
  Convert : Value → Kind → Value;
  ValueOfCounter : Z → Value
}.

(** ** Errors *)

Inductive error :=
  | ErrSchemaMissing (schema : string)
  | ErrRelationMissing (relation : string)
  | ErrRelationExists (relation : string)
  | ErrCannotAssign (relation attr : string)
      (* "cannot assign '%v' (type %s) to %s.%s (type %s)" *)
  | ErrNoValue (relation attr : string)
      (* "no value for %s.%s" *)
  | ErrNoSuchAttribute (relation : string)
      (* "attribute %s does not exist in relation %s"; the attribute named
         is the first key that the range over the map happens to yield *)
  | ErrAttributeNotDefined
      (* "attribute not defined" *)
  | ErrNoPredicate
      (* "query requires 1 predicate" *)
  | ErrNoScanner (relation : string)
      (* "cannot join %s, scanner for %s not found" *)
  | ErrNoJoin (scans : nat)
      (* "no join, but got %d scan" *)
  | ErrExec (code : nat)
      (* an error returned by the executor *)
  | ErrCommitted
      (* "transaction committed" *)
  | ErrAborted (cause : error).
      (* "transaction aborted due to previous error: %w" *)

Inductive result (A : Type) :=
  | Ok (a : A)
  | Err (e : error).
Arguments Ok {A} a.
Arguments Err {A} e.

Definition loc := nat.

Section Engine.
Context {GV : GoValues}.

(** ** Data model *)

(** Modelled from the spec: the declaration of [Attribute] is outside the
    given sources. The fields are those that [Insert] and [NewRelation]
    read; [a_nextValue] is the spec's "monotonically increasing integer
    counter", [a_defaultValue] its "nullary function". The field [fk] is
    read by [Insert] only to guard an empty block and is left out. *)
Record Attribute := mkAttribute {
  a_name : string;
  a_typeInstance : Kind;
  a_defaultValue : option (unit → Value);
  a_autoIncrement : bool;
  a_nextValue : Z;
  a_unique : bool
}.

(** A [*Tuple]: the pointer ([tp_id]) and the values appended to it. [Insert]
    pushes each tuple once, so the same identity names the [*list.Element]
    that holds it in the row list. *)
Record Tuple := mkTuple {
  tp_id : nat;
  tp_values : list Value
}.

(** Modelled from the spec: [Index] and [NewHashIndex] are outside the given
    sources. "Associative lookup from an attribute subset to tuples", with
    the operations "add/remove a tuple" and "truncate": the index keeps the
    tuples added to it, in the order they were added, and [Remove] takes out
    the tuple passed to it. *)
Record Index := mkIndex {
  i_name : string;
  i_relation : string;
  i_attrs : list string;
  i_positions : list nat;
  i_tuples : list Tuple
}.

Definition NewHashIndex (name relation : string) (attrs : list string)
    (positions : list nat) : Index :=
  mkIndex name relation attrs positions [].

Definition Index_Add (t : Tuple) (i : Index) : Index :=
  mkIndex (i_name i) (i_relation i) (i_attrs i) (i_positions i)
          (i_tuples i ++ [t]).

Definition remove_tuple (id : nat) (l : list Tuple) : list Tuple :=
  filter (λ t, tp_id t ≠ id) l.

Definition Index_Remove (t : Tuple) (i : Index) : Index :=
  mkIndex (i_name i) (i_relation i) (i_attrs i) (i_positions i)
          (remove_tuple (tp_id t) (i_tuples i)).

Definition Index_Truncate (i : Index) : Index :=
  mkIndex (i_name i) (i_relation i) (i_attrs i) (i_positions i) [].

(** [type Relation struct]; [r_locked] is the state of the embedded
    [sync.RWMutex] (only [Lock] and [Unlock] are used on it). *)
Record Relation := mkRelation {
  r_name : string;
  r_schema : string;
  r_attributes : list Attribute;
  r_attrIndex : gmap string nat;
  r_pk : list nat;
  r_rows : list Tuple;
  r_indexes : list Index;
  r_locked : bool
}.

(** [for i, a := range r.attributes { r.attrIndex[a.name] = i }] *)
Fixpoint build_attrIndex (attrs : list Attribute) (i : nat)
    (m : gmap string nat) : gmap string nat :=
  match attrs with
  | [] => m
  | a :: rest => build_attrIndex rest (S i) (<[a_name a := i]> m)
  end.

(** [r.pk = append(r.pk, r.attrIndex[k])]: a missing key reads as 0. *)
Definition build_pk (attrIndex : gmap string nat) (pk : list string) : list nat :=
  map (λ k, default 0 (attrIndex !! k)) pk.

(** the loop creating one hash index for each unique attribute *)
Fixpoint unique_indexes (schema name : string) (attrs : list Attribute)
    (i : nat) : list Index :=
  match attrs with
  | [] => []
  | a :: rest =>
      (if a_unique a
       then [NewHashIndex ("unique_" ++ schema ++ "_" ++ name ++ "_" ++ a_name a)
                          name [a_name a] [i]]
       else [])
      ++ unique_indexes schema name rest (S i)
  end.

Definition NewRelation (schema name : string) (attributes : list Attribute)
    (pk : list string) : Relation :=
  let attrIndex := build_attrIndex attributes 0 ∅ in
  let pkpos := build_pk attrIndex pk in
  let pkidx :=
    if decide (length pkpos ≠ 0)
    then [NewHashIndex ("pk_" ++ schema ++ "_" ++ name) name pk pkpos]
    else [] in
  mkRelation name schema attributes attrIndex pkpos []
             (pkidx ++ unique_indexes schema name attributes 0) false.

(** [func (r *Relation) Attribute(name string)]; [None] is the index-out-of-
    range panic of [r.attributes[index]]. *)
Definition Relation_Attribute (r : Relation) (name : string)
    : option (result (nat * Attribute)) :=
  match r_attrIndex r !! name with
  | None => Some (Err ErrAttributeNotDefined)
  | Some index => a ← r_attributes r !! index; Some (Ok (index, a))
  end.

(** [func (r *Relation) Truncate()], between [r.Lock()] and [r.Unlock()] *)
Definition Relation_Truncate (r : Relation) : option Relation :=
  if r_locked r then None
  else Some (mkRelation (r_name r) (r_schema r) (r_attributes r) (r_attrIndex r)
                        (r_pk r) [] (map Index_Truncate (r_indexes r)) false).

(** ** The change log *)

(** The entries that the operations of [transaction.go] push.
    [ValueChange current l] is [ValueChange{current: e, old: nil, l: r.rows}]:
    [l] is the row list, named by the relation that owns it.
    [RelationChange schema current old]: [old = None] records a creation,
    [current = None] a drop. *)
Inductive Change :=
  | ValueChange (current : Tuple) (l : loc)
  | RelationChange (schema : string) (current old : option loc).

(** ** Engine and transaction state *)

(** The engine [t.e] points to, with the relation objects that pointers of
    the engine, of the lock map and of the change log refer to. [e_next]
    is the allocator: the next fresh pointer. *)
Record Engine := mkEngine {
  e_schemas : gmap string (gmap string loc);
  e_heap : gmap loc Relation;
  e_next : nat
}.

Record Transaction := mkTransaction {
  t_e : Engine;
  t_locks : gmap string loc;
  t_changes : list Change;
  t_err : option error
}.

Definition NewTransaction (e : Engine) : Transaction :=
  mkTransaction e ∅ [] None.

Definition set_engine (e : Engine) (t : Transaction) : Transaction :=
  mkTransaction e (t_locks t) (t_changes t) (t_err t).

Definition set_heap (h : gmap loc Relation) (e : Engine) : Engine :=
  mkEngine (e_schemas e) h (e_next e).

Definition set_locked (b : bool) (r : Relation) : Relation :=
  mkRelation (r_name r) (r_schema r) (r_attributes r) (r_attrIndex r) (r_pk r)
             (r_rows r) (r_indexes r) b.

Definition set_changes (cs : list Change) (t : Transaction) : Transaction :=
  mkTransaction (t_e t) (t_locks t) cs (t_err t).

Definition set_err (err : option error) (t : Transaction) : Transaction :=
  mkTransaction (t_e t) (t_locks t) (t_changes t) err.

(** ** Engine and schema lookups *)

(** Modelled from the spec: [Engine.schema] is outside the given sources;
    "Operations: [Schema(name)] ... Errors: missing schema". *)
Definition Engine_schema (e : Engine) (name : string) : result (gmap string loc) :=
  match e_schemas e !! name with
  | Some s => Ok s
  | None => Err (ErrSchemaMissing name)
  end.

(** Modelled from the spec: [Schema.Relation] is outside the given sources;
    "Schema exposes ... [Relation(name)]. Errors: ... missing relation". *)
Definition Schema_Relation (s : gmap string loc) (name : string) : result loc :=
  match s !! name with
  | Some l => Ok l
  | None => Err (ErrRelationMissing name)
  end.

(** Modelled from the spec: [Engine.createRelation] is outside the given
    sources; a schema mutation with the errors "missing schema" and
    "duplicate name", which builds the relation with [NewRelation] and
    returns the schema and the new relation. *)
Definition Engine_createRelation (e : Engine) (schemaName relName : string)
    (attributes : list Attribute) (pk : list string) : result loc * Engine :=
  match Engine_schema e schemaName with
  | Err err => (Err err, e)
  | Ok s =>
      match s !! relName with
      | Some _ => (Err (ErrRelationExists relName), e)
      | None =>
          let l := e_next e in
          (Ok l,
           mkEngine (<[schemaName := <[relName := l]> s]> (e_schemas e))
                    (<[l := NewRelation schemaName relName attributes pk]> (e_heap e))
                    (S (e_next e)))
      end
  end.

(** Modelled from the spec: [Engine.dropRelation] is outside the given
    sources; a schema mutation with the errors "missing schema" and
    "missing relation", which takes the relation out of its schema and
    returns both. *)
Definition Engine_dropRelation (e : Engine) (schemaName relName : string)
    : result loc * Engine :=
  match Engine_schema e schemaName with
  | Err err => (Err err, e)
  | Ok s =>
      match Schema_Relation s relName with
      | Err err => (Err err, e)
      | Ok l =>
          (Ok l,
           mkEngine (<[schemaName := delete relName s]> (e_schemas e))
                    (e_heap e) (e_next e))
      end
  end.

(** ** Locks and the error latch *)

(** [func (t *Transaction) lock(r *Relation)] *)
Definition lock (l : loc) (t : Transaction) : option Transaction :=
  r ← e_heap (t_e t) !! l;
  match t_locks t !! r_name r with
  | Some _ => Some t
  | None =>
      if r_locked r then None
      else Some (mkTransaction
                   (set_heap (<[l := set_locked true r]> (e_heap (t_e t))) (t_e t))
                   (<[r_name r := l]> (t_locks t))
                   (t_changes t) (t_err t))
  end.

(** [for _, r := range t.locks { r.Unlock() }] *)
Definition unlock_all (held : list (string * loc)) (h : gmap loc Relation)
    : gmap loc Relation :=
  foldr (λ kr h', alter (set_locked false) kr.2 h') h held.

(** [func (t *Transaction) unlock()] *)
Definition unlock (t : Transaction) : Transaction :=
  mkTransaction
    (set_heap (unlock_all (map_to_list (t_locks t)) (e_heap (t_e t))) (t_e t))
    ∅ (t_changes t) (t_err t).

(** [func (t *Transaction) aborted() error] *)
Definition aborted (t : Transaction) : option error :=
  match t_err t with
  | Some err => Some (ErrAborted err)
  | None => None
  end.

(** ** Undoing changes *)

Definition undo_insert (current : Tuple) (r : Relation) : Relation :=
  mkRelation (r_name r) (r_schema r) (r_attributes r) (r_attrIndex r) (r_pk r)
             (remove_tuple (tp_id current) (r_rows r))
             (map (Index_Remove current) (r_indexes r))
             (r_locked r).

(** Modelled from the spec: [rollbackValueChange] is outside the given
    sources; "undoing each entry (restore tuple to its old position in the
    row list and old index state ...)". For the entry of an [Insert] the
    element is taken out of the row list and the tuple out of every index of
    the relation that owns the list. *)
Definition rollbackValueChange (current : Tuple) (l : loc) (t : Transaction)
    : Transaction :=
  set_engine (set_heap (alter (undo_insert current) l (e_heap (t_e t))) (t_e t)) t.

Definition set_schemas (s : gmap string (gmap string loc)) (e : Engine) : Engine :=
  mkEngine s (e_heap e) (e_next e).

(** Modelled from the spec: [rollbackRelationChange] is outside the given
    sources; "re-create a dropped relation or drop a created one". *)
Definition rollbackRelationChange (schema : string) (current old : option loc)
    (t : Transaction) : Transaction :=
  match current, old with
  | Some c, None =>
      match e_heap (t_e t) !! c with
      | Some r =>
          set_engine (set_schemas (alter (delete (r_name r)) schema
                                         (e_schemas (t_e t))) (t_e t)) t
      | None => t
      end
  | None, Some o =>
      match e_heap (t_e t) !! o with
      | Some r =>
          set_engine (set_schemas (alter (insert (r_name r) o) schema
                                         (e_schemas (t_e t))) (t_e t)) t
      | None => t
      end
  | _, _ => t
  end.

(** the [switch b.Value.(type)] of [Rollback] *)
Definition rollbackChange (c : Change) (t : Transaction) : Transaction :=
  match c with
  | ValueChange current l => rollbackValueChange current l t
  | RelationChange schema current old => rollbackRelationChange schema current old t
  end.

(** The loop of [Rollback]: [back] lists the log from its back to its front;
    each turn undoes [t.changes.Back()] and removes it from the log. *)
Fixpoint rollbackLoop (back : list Change) (t : Transaction) : Transaction :=
  match back with
  | [] => t
  | b :: rest => rollbackLoop rest (set_changes (rev rest) (rollbackChange b t))
  end.

(** [func (t *Transaction) Rollback()] *)
Definition Rollback (t : Transaction) : Transaction :=
  match aborted t with
  | Some _ => t
  | None => unlock (rollbackLoop (rev (t_changes t)) t)
  end.

(** [func (t *Transaction) abort(err error) error] *)
Definition abort (err : error) (t : Transaction) : Transaction :=
  set_err (Some err) (Rollback t).

(** [func (t *Transaction) Commit() (int, error)] *)
Definition Commit (t : Transaction) : result nat * Transaction :=
  match aborted t with
  | Some err => (Err err, t)
  | None =>
      let changed := length (t_changes t) in
      (Ok changed, set_err (Some ErrCommitted) (unlock (set_changes [] t)))
  end.

(** [func (t Transaction) Error() error] *)
Definition Error (t : Transaction) : option error := t_err t.

(** ** Schema operations *)

(** [func (t *Transaction) RelationAttribute(schName, relName, attrName)] *)
Definition RelationAttribute (schName relName attrName : string)
    (t : Transaction) : option (result (nat * Attribute)) :=
  match aborted t with
  | Some err => Some (Err err)
  | None =>
      match Engine_schema (t_e t) schName with
      | Err err => Some (Err err)
      | Ok s =>
          match Schema_Relation s relName with
          | Err err => Some (Err err)
          | Ok l => r ← e_heap (t_e t) !! l; Relation_Attribute r attrName
          end
      end
  end.

(** [func (t *Transaction) CheckRelation(schemaName, relName string) bool] *)
Definition CheckRelation (schemaName relName : string) (t : Transaction) : bool :=
  match aborted t with
  | Some _ => false
  | None =>
      match Engine_schema (t_e t) schemaName with
      | Err _ => false
      | Ok s =>
          match Schema_Relation s relName with
          | Err _ => false
          | Ok _ => true
          end
      end
  end.

(** [func (t *Transaction) CreateRelation(schemaName, relName, attributes, pk)] *)
Definition CreateRelation (schemaName relName : string)
    (attributes : list Attribute) (pk : list string) (t : Transaction)
    : option (option error * Transaction) :=
  match aborted t with
  | Some err => Some (Some err, t)
  | None =>
      match Engine_createRelation (t_e t) schemaName relName attributes pk with
      | (Err err, _) => Some (Some err, abort err t)
      | (Ok r, e') =>
          let c := RelationChange schemaName (Some r) None in
          t' ← lock r (set_changes (t_changes t ++ [c]) (set_engine e' t));
          Some (None, t')
      end
  end.

(** [func (t *Transaction) DropRelation(schemaName, relName string) error] *)
Definition DropRelation (schemaName relName : string) (t : Transaction)
    : option (option error * Transaction) :=
  match aborted t with
  | Some err => Some (Some err, t)
  | None =>
      match Engine_dropRelation (t_e t) schemaName relName with
      | (Err err, _) => Some (Some err, abort err t)
      | (Ok r, e') =>
          let c := RelationChange schemaName None (Some r) in
          Some (None, set_changes (t_changes t ++ [c]) (set_engine e' t))
      end
  end.

(** ** Insert *)

(** One turn of the loop over [r.attributes]: either a value is appended to
    the tuple and the loop continues, with the attribute and the map as the
    turn leaves them, or [Insert] returns the error. *)
Inductive attrStep :=
  | Appended (v : Value) (attr' : Attribute) (values' : gmap string Value)
  | Failed (err : error).

(** [r.attributes[i].nextValue++] *)
Definition incr_nextValue (a : Attribute) : Attribute :=
  mkAttribute (a_name a) (a_typeInstance a) (a_defaultValue a)
              (a_autoIncrement a) (a_nextValue a + 1) (a_unique a).

(** The body of the loop, in the order of the source: the block under
    [if !specified], then the block under [if specified], then the final
    [return]. *)
Definition insertAttr (relation : string) (attr : Attribute)
    (values : gmap string Value) : attrStep :=
  let val := values !! a_name attr in
  let after_unspecified_block :=
    match val with
    | Some v =>
        if ConvertibleTo (TypeOf v) (a_typeInstance attr)
        then Appended (Convert v (a_typeInstance attr)) attr
                      (delete (a_name attr) values)
        else Failed (ErrCannotAssign relation (a_name attr))
    | None => Failed (ErrNoValue relation (a_name attr))
    end in
  match val with
  | None =>
      match a_defaultValue attr with
      | Some f => Appended (f ()) attr values
      | None =>
          if a_autoIncrement attr
          then Appended (Convert (ValueOfCounter (a_nextValue attr))
                                 (a_typeInstance attr))
                        (incr_nextValue attr) values
          else after_unspecified_block
      end
  | Some _ => after_unspecified_block
  end.

(** [for i, attr := range r.attributes]: the result, the attributes of the
    relation and the caller's map when the loop is left. *)
Fixpoint insertLoop (relation : string) (attrs : list Attribute)
    (values : gmap string Value) (tuple : list Value)
    : result (list Value) * list Attribute * gmap string Value :=
  match attrs with
  | [] => (Ok tuple, [], values)
  | attr :: rest =>
      match insertAttr relation attr values with
      | Failed err => (Err err, attr :: rest, values)
      | Appended v attr' values' =>
          let '(res, rest', values'') :=
            insertLoop relation rest values' (tuple ++ [v]) in
          (res, attr' :: rest', values'')
      end
  end.

Definition set_attributes (attrs : list Attribute) (r : Relation) : Relation :=
  mkRelation (r_name r) (r_schema r) attrs (r_attrIndex r) (r_pk r)
             (r_rows r) (r_indexes r) (r_locked r).

(** [r.rows.PushBack(tuple)] and [index.Add(tuple)] for every index *)
Definition push_tuple (tuple : Tuple) (r : Relation) : Relation :=
  mkRelation (r_name r) (r_schema r) (r_attributes r) (r_attrIndex r) (r_pk r)
             (r_rows r ++ [tuple])
             (map (Index_Add tuple) (r_indexes r))
             (r_locked r).

(** [func (t *Transaction) Insert(schema, relation string, values map[string]any)].
    The map is the caller's: it is returned as the call leaves it. *)
Definition Insert (schema relation : string) (values : gmap string Value)
    (t : Transaction)
    : option (result Tuple * gmap string Value * Transaction) :=
  match aborted t with
  | Some err => Some (Err err, values, t)
  | None =>
      match Engine_schema (t_e t) schema with
      | Err err => Some (Err err, values, abort err t)
      | Ok s =>
          match Schema_Relation s relation with
          | Err err => Some (Err err, values, abort err t)
          | Ok l =>
              t1 ← lock l t;
              r ← e_heap (t_e t1) !! l;
              let '(res, attrs', values') :=
                insertLoop relation (r_attributes r) values [] in
              let t2 :=
                set_engine (set_heap (<[l := set_attributes attrs' r]>
                                        (e_heap (t_e t1))) (t_e t1)) t1 in
              match res with
              | Err err => Some (Err err, values', abort err t2)
              | Ok vals =>
                  match map_to_list values' with
                  | _ :: _ =>
                      let err := ErrNoSuchAttribute relation in
                      Some (Err err, values', abort err t2)
                  | [] =>
                      let tuple := mkTuple (e_next (t_e t2)) vals in
                      let e3 :=
                        mkEngine (e_schemas (t_e t2))
                                 (alter (push_tuple tuple) l (e_heap (t_e t2)))
                                 (S (e_next (t_e t2))) in
                      let c := ValueChange tuple l in
                      Some (Ok tuple, values',
                            set_changes (t_changes t2 ++ [c]) (set_engine e3 t2))
                  end
              end
          end
      end
  end.

(** *** The column policy in the words of the specification *)



(** *** Sequences of inserts, and what a relation holds *)

(** The calls [Insert(schema, relation, values)] of [calls], one after the
    other, each of which returns a tuple: the tuples and the transaction
    after the last call. *)
Fixpoint insertAll (calls : list (string * string * gmap string Value))
    (t : Transaction) : option (list Tuple * Transaction) :=
  match calls with
  | [] => Some ([], t)
  | (schema, relation, values) :: rest =>
      match Insert schema relation values t with
      | Some (Ok tuple, _, t') =>
          '(tuples, t'') ← insertAll rest t';
          Some (tuple :: tuples, t'')
      | _ => None
      end
  end.

(** the row list of a relation and its indexes *)
Definition data_of (r : Relation) : list Tuple * list Index :=
  (r_rows r, r_indexes r).

(** Two heaps hold the same relations with the same rows, in the same
    order, and the same indexes. *)
Definition same_data (h1 h2 : gmap loc Relation) : Prop :=
  ∀ l, data_of <$> h1 !! l = data_of <$> h2 !! l.

(** The allocator hands out pointers that are not in use: the tuples of the
    relations were allocated before [e_next]. *)
Definition fresh_ids (e : Engine) : Prop :=
  ∀ l r, e_heap e !! l = Some r →
    (∀ tp, tp ∈ r_rows r → (tp_id tp < e_next e)%nat)
    ∧ (∀ i tp, i ∈ r_indexes r → tp ∈ i_tuples i → (tp_id tp < e_next e)%nat).

(** *** Locks and the change log *)

(** the relations that a change concerns *)
Definition touched (c : Change) : list loc :=
  match c with
  | ValueChange _ l => [l]
  | RelationChange _ current old => option_list current ++ option_list old
  end.

(** "The set of locks held is a superset of the relations touched by any
    change already in the log": the name of every relation that a change of
    the log concerns is a key of the lock map. *)
Definition locks_cover_log (t : Transaction) : Prop :=
  ∀ c l r, c ∈ t_changes t → l ∈ touched c →
           e_heap (t_e t) !! l = Some r → is_Some (t_locks t !! r_name r).

(** ** Queries: predicates, selectors, joiners, execution nodes *)

Inductive Operator :=
  | OpEq | OpNe | OpLt | OpLe | OpGt | OpGe | OpIn | OpLike | OpIsNull
  | OpAnd | OpOr | OpNot.

(** Modelled from the spec: the [Predicate] interface is declared outside
    the given sources. A node answers [Relation()] (empty when it constrains
    none), [Left()] and [Right()]; "leaves carry (relation, attribute,
    operator, value)", "internal nodes are AND/OR/NOT". *)
Inductive Predicate :=
  | MkPredicate (relation attribute : string) (op : Operator)
                (value : option Value) (left right : option Predicate).

Definition p_Relation (p : Predicate) : string :=
  match p with MkPredicate relation _ _ _ _ _ => relation end.
Definition p_Left (p : Predicate) : option Predicate :=
  match p with MkPredicate _ _ _ _ lp _ => lp end.
Definition p_Right (p : Predicate) : option Predicate :=
  match p with MkPredicate _ _ _ _ _ rp => rp end.

(** Modelled from the spec: "a projection descriptor: target relation,
    target attribute or aggregate, and output alias". *)
Record Selector := mkSelector {
  s_Relation : string;
  s_attribute : string;
  s_alias : string
}.

(** Modelled from the spec, section 9: "[Source = HashEq | SeqScan]";
    the values built by [NewHashIndexSource] and [NewSeqScan]. *)
Inductive Source :=
  | HashIndexSource (index : Index) (p : Predicate)
  | SeqScan (r : loc).

(** [NewRelationScanner(src, nil)] and [sc.Append(p)] *)
Record Scanner := mkScanner {
  sc_source : Source;
  sc_predicates : list Predicate
}.

(** Execution trees; "[Node = Scanner | Joiner | Project]". *)
Inductive Node :=
  | ScannerNode (sc : Scanner)
  | JoinerNode (left right : string) (on : Predicate)
               (leftNode rightNode : option Node)
  | SelectorNode (selectors : list Selector) (child : Node).

(** Modelled from the spec: "left and right relation names, join predicate,
    and a mutable pair of child execution nodes". *)
Record Joiner := mkJoiner {
  j_Left : string;
  j_Right : string;
  j_on : Predicate;
  j_leftNode : option Node;
  j_rightNode : option Node
}.

Definition j_SetLeft (n : Node) (j : Joiner) : Joiner :=
  mkJoiner (j_Left j) (j_Right j) (j_on j) (Some n) (j_rightNode j).
Definition j_SetRight (n : Node) (j : Joiner) : Joiner :=
  mkJoiner (j_Left j) (j_Right j) (j_on j) (j_leftNode j) (Some n).
Definition j_Node (j : Joiner) : Node :=
  JoinerNode (j_Left j) (j_Right j) (j_on j) (j_leftNode j) (j_rightNode j).

(** Modelled from the spec: [HashIndex.CanSourceWith] is outside the given
    sources; "a hash index is applicable only when the predicate is ... an
    equality on the indexed attribute set", "a hash-equal probe returns
    cost 1". The descent into the children of the predicate is that of
    [recCanUseIndex]. *)
Definition HashIndex_CanSourceWith (index : Index) (p : Predicate) : bool * Z :=
  match p with
  | MkPredicate relation attribute OpEq (Some _) _ _ =>
      if decide (relation = i_relation index ∧ i_attrs index = [attribute])
      then (true, 1%Z)
      else (false, 0%Z)
  | _ => (false, 0%Z)
  end.

(** Modelled from the spec: [NewHashIndexSource] is outside the given
    sources; it builds the "hash-index probe" of an applicable index. *)
Definition HashIndex_NewSource (index : Index) (p : Predicate) : result Source :=
  Ok (HashIndexSource index p).

(** [sort.Sort] on a short slice is the insertion sort of the Go library:
    each element moves towards the front while it is [Less] than its
    predecessor. [front] is the sorted prefix, last element first. *)
Fixpoint insertionStep (less : Joiner → Joiner → bool) (j : Joiner)
    (front : list Joiner) : list Joiner :=
  match front with
  | [] => [j]
  | prev :: before =>
      if less j prev then prev :: insertionStep less j before
      else j :: prev :: before
  end.

Definition insertionSort (less : Joiner → Joiner → bool) (joiners : list Joiner)
    : list Joiner :=
  rev (foldl (λ front j, insertionStep less j front) [] joiners).

(** What [Query] calls and the given sources do not contain. *)
Section Planner.

(** [index.CanSourceWith(p)], which returns [(bool, int64)] *)
Variable CanSourceWith : Index → Predicate → bool * Z.
(** [NewHashIndexSource(index, p)], which may return an error *)
Variable NewHashIndexSource : Index → Predicate → result Source.
(** [sort.Sort(Joiners(joiners))]: the order is that of [Joiners.Less] *)
Variable sortJoiners : list Joiner → list Joiner.
(** [n.Exec()] on the relation objects of the engine *)
Variable Exec : Engine → Node → result (list string * list Tuple).

(** [func (t *Transaction) recLock(schema, relations, p)]: the error, the
    map [relations] and the transaction when the call returns. *)
Fixpoint recLock (schema : string) (p : Predicate)
    (relations : gmap string loc) (t : Transaction)
    : option (option error * gmap string loc * Transaction) :=
  match Engine_schema (t_e t) schema with
  | Err err => Some (Some err, relations, t)
  | Ok s =>
      let here :=
        if decide (p_Relation p ≠ "")
        then match Schema_Relation s (p_Relation p) with
             | Err err => Some (Some err, relations, t)
             | Ok r =>
                 t' ← lock r t;
                 Some (None, <[p_Relation p := r]> relations, t')
             end
        else Some (None, relations, t) in
      match here with
      | None => None
      | Some (Some err, relations1, t1) => Some (Some err, relations1, t1)
      | Some (None, relations1, t1) =>
          let on_left :=
            match p with
            | MkPredicate _ _ _ _ (Some lp) _ => recLock schema lp relations1 t1
            | MkPredicate _ _ _ _ None _ => Some (None, relations1, t1)
            end in
          match on_left with
          | None => None
          | Some (Some err, relations2, t2) => Some (Some err, relations2, t2)
          | Some (None, relations2, t2) =>
              match p with
              | MkPredicate _ _ _ _ _ (Some rp) => recLock schema rp relations2 t2
              | MkPredicate _ _ _ _ _ None => Some (None, relations2, t2)
              end
          end
      end
  end.

(** [for _, sel := range selectors] of stage (1) *)
Fixpoint lockSelectors (s : gmap string loc) (selectors : list Selector)
    (relations : gmap string loc) (t : Transaction)
    : option (option error * gmap string loc * Transaction) :=
  match selectors with
  | [] => Some (None, relations, t)
  | sel :: rest =>
      match Schema_Relation s (s_Relation sel) with
      | Err err => Some (Some err, relations, t)
      | Ok r =>
          t' ← lock r t;
          lockSelectors s rest (<[s_Relation sel := r]> relations) t'
      end
  end.

(** [func recCanUseIndex(relName, index, p)]: [None] is the result
    [(0, false, nil)], [Some (cost, p')] the result [(cost, true, p')]. *)
Fixpoint recCanUseIndex (relName : string) (index : Index) (p : Predicate)
    : option (Z * Predicate) :=
  let '(ok, cost) := CanSourceWith index p in
  if ok then Some (cost, p)
  else
    let on_left :=
      match p with
      | MkPredicate _ _ _ _ (Some lp) _ => recCanUseIndex relName index lp
      | MkPredicate _ _ _ _ None _ => None
      end in
    match on_left with
    | Some found => Some found
    | None =>
        match p with
        | MkPredicate _ _ _ _ _ (Some rp) => recCanUseIndex relName index rp
        | MkPredicate _ _ _ _ _ None => None
        end
    end.

(** [for _, index := range r.indexes] of stage (2): the map [sources] and
    the variable [sourceCost] when the loop is left. *)
Fixpoint chooseIndex (rname : string) (indexes : list Index) (p : Predicate)
    (sources : gmap string Source) (sourceCost : Z)
    : gmap string Source * Z :=
  match indexes with
  | [] => (sources, sourceCost)
  | index :: rest =>
      match recCanUseIndex rname index p with
      | Some (cost, p') =>
          if (sourceCost =? 0)%Z || (cost <? sourceCost)%Z
          then match NewHashIndexSource index p' with
               | Err _ => chooseIndex rname rest p sources sourceCost
               | Ok newsrc =>
                   chooseIndex rname rest p (<[rname := newsrc]> sources) cost
               end
          else chooseIndex rname rest p sources sourceCost
      | None => chooseIndex rname rest p sources sourceCost
      end
  end.

(** [for _, r := range relations] of stage (2), visiting the map in the
    order [rels]; [sourceCost] is declared before the loop. *)
Fixpoint chooseSources (rels : list (string * loc)) (h : gmap loc Relation)
    (p : Predicate) (sources : gmap string Source) (sourceCost : Z)
    : option (gmap string Source * Z) :=
  match rels with
  | [] => Some (sources, sourceCost)
  | (_, l) :: rest =>
      r ← h !! l;
      let '(sources1, sourceCost1) :=
        chooseIndex (r_name r) (r_indexes r) p sources sourceCost in
      let sources2 :=
        match sources1 !! r_name r with
        | Some _ => sources1
        | None => <[r_name r := SeqScan l]> sources1
        end in
      chooseSources rest h p sources2 sourceCost1
  end.

(** [func recAppendPredicates(rname, sc, p)] on the predicates of [sc] *)
Fixpoint recAppendPredicates (rname : string) (p : Predicate)
    (predicates : list Predicate) : list Predicate :=
  if decide (p_Relation p = rname) then predicates ++ [p]
  else
    let predicates1 :=
      match p with
      | MkPredicate _ _ _ _ (Some lp) _ => recAppendPredicates rname lp predicates
      | MkPredicate _ _ _ _ None _ => predicates
      end in
    match p with
    | MkPredicate _ _ _ _ _ (Some rp) => recAppendPredicates rname rp predicates1
    | MkPredicate _ _ _ _ _ None => predicates1
    end.

(** [for _, r := range relations] of stage (3) *)
Fixpoint buildScanners (rels : list (string * loc)) (h : gmap loc Relation)
    (p : Predicate) (sources : gmap string Source)
    (scanners : gmap string Scanner) : option (gmap string Scanner) :=
  match rels with
  | [] => Some scanners
  | (_, l) :: rest =>
      r ← h !! l;
      src ← sources !! r_name r;
      let sc := mkScanner src (recAppendPredicates (r_name r) p []) in
      buildScanners rest h p sources (<[r_name r := sc]> scanners)
  end.

(** [for _, j := range joiners]: scanners become the children of joiners *)
Fixpoint assignScanners (scanners : gmap string Scanner) (joiners : list Joiner)
    : result (list Joiner) :=
  match joiners with
  | [] => Ok []
  | j :: rest =>
      match scanners !! j_Left j with
      | None => Err (ErrNoScanner (j_Left j))
      | Some scl =>
          match scanners !! j_Right j with
          | None => Err (ErrNoScanner (j_Right j))
          | Some scr =>
              match assignScanners scanners rest with
              | Err err => Err err
              | Ok rest' =>
                  Ok (j_SetRight (ScannerNode scr) (j_SetLeft (ScannerNode scl) j)
                      :: rest')
              end
          end
      end
  end.

(** [for _, n := range joiners] over the map [seen]. The map holds pointers:
    an entry set to [n] shows [n] as the turn leaves it. A joiner whose two
    sides name the same unseen relation becomes its own right child; the
    tree is then cyclic and the walk of [PrintQueryPlan] over it does not
    end: [None]. *)
Fixpoint buildTree (joiners : list Joiner) (seen : gmap string Node)
    : option (list Joiner) :=
  match joiners with
  | [] => Some []
  | n :: rest =>
      match seen !! j_Left n, seen !! j_Right n with
      | None, None =>
          if decide (j_Left n = j_Right n) then None
          else
            rest' ← buildTree rest
                      (<[j_Right n := j_Node n]> (<[j_Left n := j_Node n]> seen));
            Some (n :: rest')
      | None, Some child =>
          let n' := j_SetRight child n in
          rest' ← buildTree rest (<[j_Left n := j_Node n']> seen);
          Some (n' :: rest')
      | Some child, None =>
          let n' := j_SetLeft child n in
          rest' ← buildTree rest (<[j_Right n := j_Node n']> seen);
          Some (n' :: rest')
      | Some childl, Some childr =>
          let n' := j_SetRight childr (j_SetLeft childl n) in
          rest' ← buildTree rest seen;
          Some (n' :: rest')
      end
  end.

(** Stages (2) and (3) and the selector node: the execution tree of a query
    over the relations [relations], visited in the order [rels]. *)
Definition plan (rels : list (string * loc)) (h : gmap loc Relation)
    (selectors : list Selector) (p : Predicate) (joiners : list Joiner)
    : option (result Node) :=
  '(sources, _) ← chooseSources rels h p ∅ 0%Z;
  scanners ← buildScanners rels h p sources ∅;
  match assignScanners scanners joiners with
  | Err err => Some (Err err)
  | Ok joiners1 =>
      joiners2 ← buildTree (sortJoiners joiners1) ∅;
      match joiners with
      | _ :: _ =>
          j ← last joiners2;
          Some (Ok (SelectorNode selectors (j_Node j)))
      | [] =>
          match map_to_list scanners with
          | [(_, v)] => Some (Ok (SelectorNode selectors (ScannerNode v)))
          | _ => Some (Err (ErrNoJoin (size scanners)))
          end
      end
  end.

(** [func (t *Transaction) Query(schema, selectors, p, joiners)].
    [p = None] is the nil predicate. [range] gives the order in which the
    [range] statements of this call visit the map [relations]: Go leaves
    that order unspecified and varies it from one loop to the next. *)
Definition Query (schema : string) (selectors : list Selector)
    (p : option Predicate) (joiners : list Joiner)
    (range : gmap string loc → list (string * loc)) (t : Transaction)
    : option (result (list string * list Tuple) * Transaction) :=
  match aborted t with
  | Some err => Some (Err err, t)
  | None =>
      match Engine_schema (t_e t) schema with
      | Err err => Some (Err err, abort err t)
      | Ok s =>
          match p with
          | None => Some (Err ErrNoPredicate, abort ErrNoPredicate t)
          | Some p =>
              '(err1, relations1, t1) ← recLock schema p ∅ t;
              match err1 with
              | Some err => Some (Err err, abort err t1)
              | None =>
                  '(err2, relations, t2) ← lockSelectors s selectors relations1 t1;
                  match err2 with
                  | Some err => Some (Err err, abort err t2)
                  | None =>
                      n ← plan (range relations) (e_heap (t_e t2))
                               selectors p joiners;
                      match n with
                      | Err err => Some (Err err, abort err t2)
                      | Ok n =>
                          match Exec (t_e t2) n with
                          | Err err => Some (Err err, abort err t2)
                          | Ok res => Some (Ok res, t2)
                          end
                      end
                  end
              end
          end
      end
  end.

(** ** The operations of a transaction *)

(** A call of one of the methods that change a transaction. *)
Inductive Operation :=
  | CallInsert (schema relation : string) (values : gmap string Value)
  | CallQuery (schema : string) (selectors : list Selector)
              (p : option Predicate) (joiners : list Joiner)
              (range : gmap string loc → list (string * loc))
  | CallCreateRelation (schemaName relName : string)
                       (attributes : list Attribute) (pk : list string)
  | CallDropRelation (schemaName relName : string)
  | CallCommit
  | CallRollback.

(** The [error] that the call returns ([None] for [nil], and for [Rollback],
    which returns nothing) and the transaction as the call leaves it. *)
Definition run (op : Operation) (t : Transaction)
    : option (option error * Transaction) :=
  match op with
  | CallInsert schema relation values =>
      '(res, _, t') ← Insert schema relation values t;
      Some (match res with Ok _ => None | Err err => Some err end, t')
  | CallQuery schema selectors p joiners range =>
      '(res, t') ← Query schema selectors p joiners range t;
      Some (match res with Ok _ => None | Err err => Some err end, t')
  | CallCreateRelation schemaName relName attributes pk =>
      CreateRelation schemaName relName attributes pk t
  | CallDropRelation schemaName relName =>
      DropRelation schemaName relName t
  | CallCommit =>
      let '(res, t') := Commit t in
      Some (match res with Ok _ => None | Err err => Some err end, t')
  | CallRollback => Some (None, Rollback t)
  end.

End Planner.

End Engine.

(** * Further definitions: nodes of a predicate, well-formed transactions *)

Section Notions.
Context {GV : GoValues}.

(** [q] is the predicate [p] or a node reached from it by [Left()] and
    [Right()]. *)
Inductive subnode (q : Predicate) : Predicate → Prop :=
  | subnode_here : subnode q q
  | subnode_left relation attribute op value lp rp :
      subnode q lp →
      subnode q (MkPredicate relation attribute op value (Some lp) rp)
  | subnode_right relation attribute op value lp rp :
      subnode q rp →
      subnode q (MkPredicate relation attribute op value lp (Some rp)).

(** the hash index that [NewRelation] creates for the unique attribute [a]
    at position [i] *)
Definition unique_index (schema name : string) (i : nat) (a : Attribute) : Index :=
  NewHashIndex ("unique_" ++ schema ++ "_" ++ name ++ "_" ++ a_name a)
               name [a_name a] [i].

(** Every entry of the lock map points to a relation of that name whose
    mutex is locked: [unlock] calls [Unlock] on locked mutexes only. *)
Definition locks_sound (t : Transaction) : Prop :=
  ∀ name l, t_locks t !! name = Some l →
    ∃ r, e_heap (t_e t) !! l = Some r ∧ r_name r = name ∧ r_locked r = true.

(** The relation objects were allocated before [e_next]. *)
Definition heap_allocated (e : Engine) : Prop :=
  ∀ l r, e_heap e !! l = Some r → (l < e_next e)%nat.

Definition well_formed (t : Transaction) : Prop :=
  locks_sound t ∧ heap_allocated (t_e t).

(** The relation at [l] exists and its name is a key of the lock map. *)
Definition locked_by (t : Transaction) (l : loc) : Prop :=
  ∃ r, e_heap (t_e t) !! l = Some r ∧ is_Some (t_locks t !! r_name r).

(** From [t] to [t'] relations keep their names and no lock is given up. *)
Definition locks_grow (t t' : Transaction) : Prop :=
  (∀ l, r_name <$> e_heap (t_e t') !! l = r_name <$> e_heap (t_e t) !! l)
  ∧ (∀ name, is_Some (t_locks t !! name) → is_Some (t_locks t' !! name)).

(** What [recLock] leaves when it returns, [s] being the schema named
    [schema] and the entries of [relations] being relations of [s]. *)
Definition recLock_post (s : gmap string loc) (p : Predicate)
    (relations : gmap string loc) (t : Transaction)
    (res : option error) (relations' : gmap string loc) (t' : Transaction) : Prop :=
  locks_grow t t'
  ∧ same_data (e_heap (t_e t')) (e_heap (t_e t))
  ∧ match res with
    | None =>
        relations ⊆ relations' ∧ relations' ⊆ s
        ∧ (∀ q, subnode q p → p_Relation q ≠ "" →
             ∃ l, relations' !! p_Relation q = Some l ∧ locked_by t' l)
        ∧ (∀ k, is_Some (relations' !! k) →
             is_Some (relations !! k)
             ∨ ∃ q, subnode q p ∧ p_Relation q = k ∧ k ≠ "")
    | Some err =>
        ∃ q, subnode q p ∧ p_Relation q ≠ "" ∧ s !! p_Relation q = None
             ∧ err = ErrRelationMissing (p_Relation q)
    end.

(** The heap [h'] holds the relations of [h], with their names and the
    state of their mutexes. *)
Definition same_mutexes (h h' : gmap loc Relation) : Prop :=
  ∀ l, (λ r, (r_name r, r_locked r)) <$> h' !! l
       = (λ r, (r_name r, r_locked r)) <$> h !! l.

(** The two joiners name the same relations and carry the same predicate. *)
Definition same_join (j j' : Joiner) : Prop :=
  j_Left j' = j_Left j ∧ j_Right j' = j_Right j ∧ j_on j' = j_on j.

(** The joiner [j] names the relation [name] on one of its sides. *)
Definition names_relation (name : string) (j : Joiner) : Prop :=
  j_Left j = name ∨ j_Right j = name.

#[global] Instance names_relation_dec (name : string) (j : Joiner) :
  Decision (names_relation name j) :=
  decide (j_Left j = name ∨ j_Right j = name).

(** The first joiner of [js] that names [name]. *)
Definition first_naming (name : string) (js : list Joiner) : option Joiner :=
  head (filter (names_relation name) js).

(** The child of a joiner once [Query] has built the tree: the joiner that
    first named the relation, when an earlier joiner did, and the child
    that the joiner had otherwise. *)
Definition tree_child (name : string) (earlier : list Joiner)
    (own : option Node) : option Node :=
  match first_naming name earlier with
  | Some k => Some (j_Node k)
  | None => own
  end.


End Notions.

Section PlannerNotions.
Context {GV : GoValues}.
Variable CanSourceWith : Index → Predicate → bool * Z.
Variable NewHashIndexSource : Index → Predicate → result Source.

(** The relation at [l] is one of those that the loop over [rels] visits,
    and its name is [name]. *)
Definition visited (rels : list (string * loc)) (h : gmap loc Relation)
    (name : string) (l : loc) (r : Relation) : Prop :=
  (∃ k, (k, l) ∈ rels) ∧ h !! l = Some r ∧ r_name r = name.

(** [src] reads a visited relation named [name]: it is the sequential scan
    of that relation, or the source that [NewHashIndexSource] builds from
    one of its indexes and a node of [p] that the index can source with. *)
Definition valid_source (rels : list (string * loc)) (h : gmap loc Relation)
    (p : Predicate) (name : string) (src : Source) : Prop :=
  ∃ l r, visited rels h name l r
    ∧ (src = SeqScan l
       ∨ ∃ index cost p',
           index ∈ r_indexes r
           ∧ recCanUseIndex CanSourceWith name index p = Some (cost, p')
           ∧ NewHashIndexSource index p' = Ok src).

End PlannerNotions.

(** * A value domain and an engine to run the model on *)

(** Two of the column types of the driver's tests, [INT] and [TEXT], with
    the convertibility of Go: every kind converts to itself and an integer
    converts to a string (the string of that code point), a string does not
    convert to an integer. *)
Inductive SqlKind := KInt | KText.
Inductive SqlValue := VInt (n : Z) | VText (s : string).

#[export] Instance sqlValues : GoValues := {|
  Value := SqlValue;
  Kind := SqlKind;
  TypeOf := λ v, match v with VInt _ => KInt | VText _ => KText end;
  ConvertibleTo := λ k1 k2, match k1, k2 with KText, KInt => false | _, _ => true end;
  Convert := λ v k,
    match v, k with
    | VInt n, KText => VText (String (Ascii.ascii_of_N (Z.to_N n)) EmptyString)
    | _, _ => v
    end;
  ValueOfCounter := VInt
|}.

Module Sample.

(** [CREATE TABLE account (id INT, email TEXT)] *)
Definition account_attrs : list Attribute :=
  [ mkAttribute "id" KInt None false 0 false;
    mkAttribute "email" KText None false 0 false ].

Definition account : Relation := NewRelation "public" "account" account_attrs [].

(** an engine with the schema [public] holding [account] at address 0 *)
Definition engine : Engine :=
  mkEngine {[ "public" := {[ "account" := 0 ]} ]} {[ 0 := account ]} 1.

Definition row1 : gmap string SqlValue :=
  {[ "id" := VInt 1; "email" := VText "foo@bar.com" ]}.
Definition row2 : gmap string SqlValue :=
  {[ "id" := VInt 2; "email" := VText "bar@bar.com" ]}.

(** a transaction that has inserted one row *)
Definition after_insert : Transaction :=
  match Insert "public" "account" row1 (NewTransaction engine) with
  | Some (_, _, t) => t
  | None => NewTransaction engine
  end.



(** [CREATE TABLE a (x INT UNIQUE)] and [CREATE TABLE b (y INT UNIQUE)]:
    each relation has one hash index, on its unique attribute *)
Definition rel_a : Relation :=
  NewRelation "public" "a" [mkAttribute "x" KInt None false 0 true] [].
Definition rel_b : Relation :=
  NewRelation "public" "b" [mkAttribute "y" KInt None false 0 true] [].

Definition engine2 : Engine :=
  mkEngine {[ "public" := {[ "a" := 0; "b" := 1 ]} ]}
           {[ 0 := rel_a; 1 := rel_b ]} 2.

Definition x_is_1 : Predicate :=
  MkPredicate "a" "x" OpEq (Some (VInt 1)) None None.
Definition y_is_2 : Predicate :=
  MkPredicate "b" "y" OpEq (Some (VInt 2)) None None.

(** [WHERE a.x = 1 AND b.y = 2] *)
Definition where_xy : Predicate :=
  MkPredicate "" "" OpAnd None (Some x_is_1) (Some y_is_2).

(** [a JOIN b ON a.x = b.y] *)
Definition a_join_b : Joiner :=
  mkJoiner "a" "b" (MkPredicate "" "x" OpEq None None None) None None.

(** two inserts into [a], whose unique column is indexed *)
Definition two_rows : list (string * string * gmap string SqlValue) :=
  [ ("public", "a", {[ "x" := VInt 1 ]}); ("public", "a", {[ "x" := VInt 2 ]}) ].

(** two orders in which a [range] statement may visit a map *)
Definition range_up (m : gmap string loc) : list (string * loc) := map_to_list m.
Definition range_down (m : gmap string loc) : list (string * loc) :=
  reverse (map_to_list m).

Definition relations_ab : gmap string loc := {[ "a" := 0; "b" := 1 ]}.

(** the parameters of the planner for the runs below: hash indexes, joiners
    that are never [Less] than one another, an executor that returns no row *)
Definition less : Joiner → Joiner → bool := λ _ _, false.
Definition exec : Engine → Node → result (list string * list Tuple) :=
  λ _ _, Ok ([], []).
Definition run_op : Operation → Transaction → option (option error * Transaction) :=
  run HashIndex_CanSourceWith HashIndex_NewSource (insertionSort less) exec.

(** the transaction once [Insert] has locked [account] *)
Definition locked : Transaction :=
  match lock 0 (NewTransaction engine) with
  | Some t => t
  | None => NewTransaction engine
  end.


Definition tuple2 : Tuple := mkTuple 2 [VInt 2; VText "bar@bar.com"].
Definition two_tuples : list Tuple := [mkTuple 2 [VInt 1]; mkTuple 3 [VInt 2]].

(** the transaction left by an operation *)
Definition left_by {A : Type} (call : option (A * Transaction))
    (t : Transaction) : Transaction :=
  match call with
  | Some (_, t') => t'
  | None => t
  end.

Definition after_commit : Transaction := (Commit after_insert).2.
Definition reopened : Transaction := Rollback after_insert.
Definition after_reinsert : Transaction :=
  left_by (Insert "public" "account" row2 reopened) reopened.
Definition after_two_rows : Transaction :=
  left_by (insertAll two_rows (NewTransaction engine2)) (NewTransaction engine2).
Definition after_drop : Transaction :=
  left_by (DropRelation "public" "account" (NewTransaction engine))
          (NewTransaction engine).

(** the transaction once stage (1) of [Query] has locked [a] and [b] *)
Definition after_where_locks : Transaction :=
  match recLock "public" where_xy ∅ (NewTransaction engine2) with
  | Some (_, _, t) => t
  | None => NewTransaction engine2
  end.

(** the hash indexes of [a] and of [b] *)
Definition index_a : Index := NewHashIndex "unique_public_a_x" "a" ["x"] [0].
Definition index_b : Index := NewHashIndex "unique_public_b_y" "b" ["y"] [0].

End Sample.

(** Further values for the runs *)
Module MoreSamples.
Import Sample.

(** the relation [account] as [after_insert] holds it *)
Definition stored_account : Relation :=
  default account (e_heap (t_e after_insert) !! 0%nat).


(** the relations of [engine2], visited in the order a, b *)
Definition rels_ab : list (string * loc) := [("a", 0%nat); ("b", 1%nat)].



End MoreSamples.

(** * Properties *)

Section Properties.
Context {GV : GoValues}.
Variable CanSourceWith : Index → Predicate → bool * Z.
Variable NewHashIndexSource : Index → Predicate → result Source.
Variable sortJoiners : list Joiner → list Joiner.
Variable Exec : Engine → Node → result (list string * list Tuple).

Local Abbreviation Query' := (Query CanSourceWith NewHashIndexSource sortJoiners Exec).
Local Abbreviation run' := (run CanSourceWith NewHashIndexSource sortJoiners Exec).

(** ** Locks *)

Definition held_relations (t : Transaction) : list loc :=
  (map_to_list (t_locks t)).*2.

Lemma set_locked_false_twice (o : option Relation) :
  set_locked false <$> (set_locked false <$> o) = set_locked false <$> o.
Proof. by destruct o. Qed.

Lemma unlock_all_lookup (held : list (string * loc)) (h : gmap loc Relation) (l : loc) :
  unlock_all held h !! l =
    if decide (l ∈ held.*2) then set_locked false <$> h !! l else h !! l.
Proof.
  induction held as [|[k r] held IH].
  - case_decide as Hin; [by apply elem_of_nil in Hin | done].
  - change (unlock_all ((k, r) :: held) h)
      with (alter (set_locked false) r (unlock_all held h)).
    rewrite fmap_cons, lookup_alter. cbn [snd].
    destruct (decide (r = l)) as [->|Hne]; rewrite IH.
    + rewrite (decide_True (P := l ∈ l :: held.*2)) by apply list_elem_of_here.
      case_decide; [apply set_locked_false_twice | done].
    + destruct (decide (l ∈ held.*2)) as [Hin|Hnin].
      * rewrite decide_True; [done | by apply list_elem_of_further].
      * rewrite decide_False; [done |].
        intros Hin. apply elem_of_cons in Hin as [->|Hin]; done.
Qed.

Lemma held_relations_lookup (t : Transaction) (l : loc) :
  l ∈ held_relations t ↔ ∃ name, t_locks t !! name = Some l.
Proof.
  unfold held_relations. rewrite list_elem_of_fmap. split.
  - intros [[name l'] [-> Hin]]. exists name. by apply elem_of_map_to_list.
  - intros [name Hname]. exists (name, l). split; [done|].
    by apply elem_of_map_to_list.
Qed.

Lemma unlock_t_locks (t : Transaction) : t_locks (unlock t) = ∅.
Proof. done. Qed.

Lemma unlock_heap (t : Transaction) (l : loc) :
  e_heap (t_e (unlock t)) !! l =
    if decide (l ∈ held_relations t)
    then set_locked false <$> e_heap (t_e t) !! l
    else e_heap (t_e t) !! l.
Proof. apply unlock_all_lookup. Qed.

Lemma unlock_releases (t : Transaction) (name : string) (l : loc) (r : Relation) :
  t_locks t !! name = Some l →
  e_heap (t_e (unlock t)) !! l = Some r →
  r_locked r = false.
Proof.
  intros Hname. rewrite unlock_heap, decide_True.
  - destruct (e_heap (t_e t) !! l); simpl; [|done]. by intros [= <-].
  - apply held_relations_lookup. eauto.
Qed.

(** ** Commit *)

(** C8. On a transaction whose latch is empty, [Commit] returns the number
    of entries of the change log, leaves the log empty and the lock map
    empty, and has unlocked the mutex of every relation of the lock map,
    changing nothing else in a relation; and [Commit] returns an error
    exactly when [aborted] reports one, which it then returns. *)
Theorem Commit_counts_empties_releases (t : Transaction) :
  (t_err t = None →
   ∃ t', Commit t = (Ok (length (t_changes t)), t')
       ∧ t_changes t' = []
       ∧ t_locks t' = ∅
       ∧ (∀ l, e_heap (t_e t') !! l =
                 if decide (l ∈ held_relations t)
                 then set_locked false <$> e_heap (t_e t) !! l
                 else e_heap (t_e t) !! l)
       ∧ (∀ name l r, t_locks t !! name = Some l →
                      e_heap (t_e t') !! l = Some r → r_locked r = false))
  ∧ (∀ err, (Commit t).1 = Err err ↔ aborted t = Some err).
Proof.
  split.
  - intros Herr. unfold Commit, aborted. rewrite Herr.
    eexists. split; [reflexivity|]. repeat split.
    + intros l. apply (unlock_heap (set_changes [] t)).
    + intros name l r Hname Hl.
      apply (unlock_releases (set_changes [] t) name l r Hname Hl).
  - intros err. unfold Commit. destruct (aborted t) as [err'|]; simpl.
    + split; congruence.
    + split; discriminate.
Qed.

(** ** Rollback and abort *)

Lemma rollbackChange_frame (c : Change) (t : Transaction) :
  t_locks (rollbackChange c t) = t_locks t
  ∧ t_err (rollbackChange c t) = t_err t
  ∧ t_changes (rollbackChange c t) = t_changes t.
Proof.
  destruct c as [current l|schema [c|] [o|]]; simpl; try done;
    unfold rollbackRelationChange; by destruct (e_heap (t_e t) !! _).
Qed.

Lemma rollbackLoop_frame (back : list Change) (t : Transaction) :
  t_locks (rollbackLoop back t) = t_locks t
  ∧ t_err (rollbackLoop back t) = t_err t.
Proof.
  revert t. induction back as [|b rest IH]; intros t; simpl; [done|].
  destruct (IH (set_changes (rev rest) (rollbackChange b t))) as [-> ->].
  destruct (rollbackChange_frame b t) as (Hl & He & _). by rewrite <- Hl, <- He.
Qed.

Lemma rollbackLoop_empties (back : list Change) (t : Transaction) :
  t_changes t = rev back → t_changes (rollbackLoop back t) = [].
Proof.
  revert t. induction back as [|b rest IH]; intros t Ht; simpl.
  - by rewrite Ht.
  - by apply IH.
Qed.

Lemma Rollback_active (t : Transaction) :
  t_err t = None →
  Rollback t = unlock (rollbackLoop (rev (t_changes t)) t).
Proof. intros Herr. unfold Rollback, aborted. by rewrite Herr. Qed.

Lemma Rollback_result (t : Transaction) :
  t_err t = None →
  t_changes (Rollback t) = [] ∧ t_locks (Rollback t) = ∅ ∧ t_err (Rollback t) = None.
Proof.
  intros Herr. rewrite Rollback_active by done. simpl. split; [|split; [done|]].
  - apply rollbackLoop_empties. by rewrite rev_involutive.
  - destruct (rollbackLoop_frame (rev (t_changes t)) t) as [_ ->]. done.
Qed.

Lemma abort_result (err : error) (t : Transaction) :
  t_err t = None →
  t_changes (abort err t) = [] ∧ t_locks (abort err t) = ∅
  ∧ t_err (abort err t) = Some err.
Proof.
  intros Herr. destruct (Rollback_result t Herr) as (Hc & Hl & _).
  unfold abort. simpl. by rewrite Hc, Hl.
Qed.

Lemma aborted_active (t : Transaction) : t_err t = None → aborted t = None.
Proof. unfold aborted. by intros ->. Qed.

(** ** A latched transaction *)

(** What a call returns on a transaction whose latch holds [cause]. *)
Definition latched_answer (op : Operation) (cause : error) : option error :=
  match op with
  | CallRollback => None
  | _ => Some (ErrAborted cause)
  end.

Lemma run_latched (op : Operation) (t : Transaction) (cause : error) :
  t_err t = Some cause →
  run' op t = Some (latched_answer op cause, t).
Proof.
  intros Herr.
  destruct op; simpl;
    unfold Insert, Query, CreateRelation, DropRelation, Commit,
           Rollback, aborted;
    rewrite Herr; done.
Qed.

(** After [Commit] the latch holds "transaction committed": every later
    call is answered with it and executes nothing. *)
Lemma Commit_latches (t : Transaction) :
  t_err t = None →
  t_err (Commit t).2 = Some ErrCommitted
  ∧ ∀ op, run' op (Commit t).2 = Some (latched_answer op ErrCommitted, (Commit t).2).
Proof.
  intros Herr.
  assert (t_err (Commit t).2 = Some ErrCommitted) as Hlatch.
  { unfold Commit. by rewrite (aborted_active t Herr). }
  split; [done|]. intros op. by apply run_latched.
Qed.

(** ** Operations that fail *)

(** [t0] is [t] with more locks taken, and values of [t] consumed: change
    log, latch and schemas are those of [t]. *)
Definition same_log (t t0 : Transaction) : Prop :=
  t_changes t0 = t_changes t
  ∧ t_err t0 = t_err t
  ∧ e_schemas (t_e t0) = e_schemas (t_e t).

Lemma same_log_refl (t : Transaction) : same_log t t.
Proof. done. Qed.

Lemma same_log_trans (t1 t2 t3 : Transaction) :
  same_log t1 t2 → same_log t2 t3 → same_log t1 t3.
Proof. unfold same_log. intros (-> & -> & ->) (-> & -> & ->). done. Qed.

Lemma lock_same_log (l : loc) (t t' : Transaction) :
  lock l t = Some t' → same_log t t'.
Proof.
  unfold lock. intros H.
  destruct (e_heap (t_e t) !! l) as [r|]; simpl in H; [|done].
  destruct (t_locks t !! r_name r); [by injection H as <-|].
  destruct (r_locked r); [done|]. by injection H as <-.
Qed.

Lemma Predicate_children_ind (P : Predicate → Prop) :
  (∀ relation attribute op value lp rp,
      (∀ p, lp = Some p → P p) → (∀ p, rp = Some p → P p) →
      P (MkPredicate relation attribute op value lp rp)) →
  ∀ p, P p.
Proof.
  intros step. fix IH 1. intros [relation attribute op value lp rp].
  apply step.
  - destruct lp as [p|]; intros q [= <-]. apply IH.
  - destruct rp as [p|]; intros q [= <-]. apply IH.
Qed.

Lemma recLock_same_log (schema : string) (p : Predicate)
    (relations relations' : gmap string loc) (t t' : Transaction) (res : option error) :
  recLock schema p relations t = Some (res, relations', t') → same_log t t'.
Proof.
  revert relations relations' t t' res.
  induction p as [relation attribute op value lp rp IHl IHr] using Predicate_children_ind.
  intros relations relations' t t' res. simpl.
  destruct (Engine_schema (t_e t) schema) as [s|err]; [|by intros [= _ _ <-]].
  set (here := if decide (relation ≠ "") then _ else _).
  assert (Hhere : ∀ e1 r1 t1, here = Some (e1, r1, t1) → same_log t t1).
  { subst here. intros e1 r1 t1. case_decide; [|by intros [= _ _ <-]].
    destruct (Schema_Relation s relation) as [r|err]; [|by intros [= _ _ <-]].
    destruct (lock r t) as [tl|] eqn:Hlock; simpl; [|done].
    intros [= _ _ <-]. by eapply lock_same_log. }
  destruct here as [[[[err1|] r1] t1]|]; [| |done].
  { intros [= _ _ <-]. by eapply Hhere. }
  pose proof (Hhere _ _ _ eq_refl) as H1.
  set (on_left := match lp with Some q => _ | None => _ end).
  assert (Hleft : ∀ e2 r2 t2, on_left = Some (e2, r2, t2) → same_log t1 t2).
  { subst on_left. intros e2 r2 t2. destruct lp as [q|]; [|by intros [= _ _ <-]].
    intros H. by eapply IHl. }
  destruct on_left as [[[[err2|] r2] t2]|]; [| |done].
  { intros [= _ _ <-]. eapply same_log_trans; [done|]. by eapply Hleft. }
  pose proof (Hleft _ _ _ eq_refl) as H2.
  destruct rp as [q|].
  - intros H. eapply same_log_trans; [done|]. eapply same_log_trans; [done|].
    by eapply IHr.
  - intros [= _ _ <-]. by eapply same_log_trans.
Qed.

Lemma lockSelectors_same_log (s : gmap string loc) (selectors : list Selector)
    (relations relations' : gmap string loc) (t t' : Transaction) (res : option error) :
  lockSelectors s selectors relations t = Some (res, relations', t') → same_log t t'.
Proof.
  revert relations t. induction selectors as [|sel rest IH]; intros relations t; simpl.
  - by intros [= _ _ <-].
  - destruct (Schema_Relation s (s_Relation sel)) as [r|err]; [|by intros [= _ _ <-]].
    destruct (lock r t) as [tl|] eqn:Hlock; simpl; [|done].
    intros H. eapply same_log_trans; [by eapply lock_same_log|]. by eapply IH.
Qed.

Lemma Insert_fails_by_abort (schema relation : string) (values values' : gmap string Value)
    (t t' : Transaction) (err : error) :
  t_err t = None →
  Insert schema relation values t = Some (Err err, values', t') →
  ∃ t0, same_log t t0 ∧ t' = abort err t0.
Proof.
  intros Herr. unfold Insert. rewrite (aborted_active t Herr).
  destruct (Engine_schema (t_e t) schema) as [s|e1];
    [|intros [= <- _ <-]; by exists t].
  destruct (Schema_Relation s relation) as [l|e1];
    [|intros [= <- _ <-]; by exists t].
  destruct (lock l t) as [t1|] eqn:Hlock; simpl; [|done].
  apply lock_same_log in Hlock.
  destruct (e_heap (t_e t1) !! l) as [r|]; simpl; [|done].
  destruct (insertLoop relation (r_attributes r) values []) as [[res attrs'] vs'].
  destruct res as [vals|e1].
  - destruct (map_to_list vs'); [done|]. intros [= <- _ <-].
    eexists. split; [|reflexivity]. by destruct Hlock as (? & ? & ?).
  - intros [= <- _ <-].
    eexists. split; [|reflexivity]. by destruct Hlock as (? & ? & ?).
Qed.



(** ** Insert: the column policy *)





(** ** Insert: the caller's map *)





(** ** What the heap holds *)

Global Instance same_data_equiv : Equivalence same_data.
Proof.
  split.
  - by intros h l.
  - intros h1 h2 H l. by rewrite H.
  - intros h1 h2 h3 H1 H2 l. by rewrite H1, H2.
Qed.

Lemma same_data_alter (f : Relation → Relation) (l : loc) (h : gmap loc Relation) :
  (∀ r, data_of (f r) = data_of r) → same_data (alter f l h) h.
Proof.
  intros Hf l'. rewrite lookup_alter. case_decide as Hl; [subst l'|done].
  destruct (h !! l) as [r|]; simpl; [|done]. by rewrite Hf.
Qed.

Lemma same_data_insert (l : loc) (r r' : Relation) (h : gmap loc Relation) :
  h !! l = Some r → data_of r' = data_of r → same_data (<[l := r']> h) h.
Proof.
  intros Hl Hd l'. rewrite lookup_insert. case_decide as Hl'; [subst l'|done].
  rewrite Hl. simpl. by rewrite Hd.
Qed.

Lemma unlock_all_same_data (held : list (string * loc)) (h : gmap loc Relation) :
  same_data (unlock_all held h) h.
Proof.
  intros l. rewrite unlock_all_lookup. case_decide; [|done].
  by destruct (h !! l).
Qed.

Lemma unlock_same_data (t : Transaction) :
  same_data (e_heap (t_e (unlock t))) (e_heap (t_e t)).
Proof. apply unlock_all_same_data. Qed.

(** [lock] changes the mutex of the relation and nothing else of the heap *)
Lemma lock_heap (l : loc) (t t1 : Transaction) :
  lock l t = Some t1 →
  ∃ r, e_heap (t_e t) !! l = Some r
     ∧ e_next (t_e t1) = e_next (t_e t)
     ∧ (e_heap (t_e t1) = e_heap (t_e t)
        ∨ e_heap (t_e t1) = <[l := set_locked true r]> (e_heap (t_e t))).
Proof.
  unfold lock. intros H.
  destruct (e_heap (t_e t) !! l) as [r|] eqn:Hr; simpl in H; [|done].
  exists r. split; [done|].
  destruct (t_locks t !! r_name r); [injection H as <-; by split; [|left]|].
  destruct (r_locked r); [done|]. injection H as <-. by split; [|right].
Qed.

Lemma lock_lookup (l : loc) (t t1 : Transaction) (r1 : Relation) :
  lock l t = Some t1 →
  e_heap (t_e t1) !! l = Some r1 →
  ∃ r, e_heap (t_e t) !! l = Some r
     ∧ r_attributes r1 = r_attributes r ∧ data_of r1 = data_of r.
Proof.
  intros Hlock Hr1. destruct (lock_heap l t t1 Hlock) as (r & Hr & _ & [Hh|Hh]);
    rewrite Hh in Hr1; exists r.
  - rewrite Hr in Hr1. by injection Hr1 as <-.
  - rewrite lookup_insert_eq in Hr1. by injection Hr1 as <-.
Qed.

Lemma lock_same_data (l : loc) (t t1 : Transaction) :
  lock l t = Some t1 → same_data (e_heap (t_e t1)) (e_heap (t_e t)).
Proof.
  intros Hlock. destruct (lock_heap l t t1 Hlock) as (r & Hr & _ & [->| ->]); [done|].
  by apply same_data_insert with r.
Qed.

(** *** Undoing on the heap *)

Definition undo_heap (c : Change) (h : gmap loc Relation) : gmap loc Relation :=
  match c with
  | ValueChange current l => alter (undo_insert current) l h
  | RelationChange _ _ _ => h
  end.

Lemma rollbackChange_heap (c : Change) (t : Transaction) :
  e_heap (t_e (rollbackChange c t)) = undo_heap c (e_heap (t_e t)).
Proof.
  destruct c as [current l|schema [c|] [o|]]; simpl; try done;
    unfold rollbackRelationChange; by destruct (e_heap (t_e t) !! _).
Qed.

Lemma rollbackLoop_heap (back : list Change) (t : Transaction) :
  e_heap (t_e (rollbackLoop back t)) =
    foldl (λ h c, undo_heap c h) (e_heap (t_e t)) back.
Proof.
  revert t. induction back as [|b rest IH]; intros t; simpl; [done|].
  rewrite IH. simpl. by rewrite rollbackChange_heap.
Qed.

Lemma undo_heap_same_data (c : Change) (h1 h2 : gmap loc Relation) :
  same_data h1 h2 → same_data (undo_heap c h1) (undo_heap c h2).
Proof.
  intros H. destruct c as [current l|]; simpl; [|done].
  intros l'. rewrite !lookup_alter. case_decide; [subst l'|apply H].
  specialize (H l). destruct (h1 !! l) as [r1|], (h2 !! l) as [r2|]; simpl in *;
    try done. injection H as Hrows Hidx. unfold data_of. simpl. by rewrite Hrows, Hidx.
Qed.



(** ** Insert: what it returns and leaves *)







(** ** Inserts, then Rollback *)

Lemma Insert_ok (schema relation : string) (values values' : gmap string Value)
    (t t' : Transaction) (tuple : Tuple) :
  Insert schema relation values t = Some (Ok tuple, values', t') →
  ∃ l, t_err t = None
     ∧ t_err t' = None
     ∧ t_changes t' = t_changes t ++ [ValueChange tuple l]
     ∧ tp_id tuple = e_next (t_e t)
     ∧ e_next (t_e t') = S (e_next (t_e t))
     ∧ same_data (e_heap (t_e t')) (alter (push_tuple tuple) l (e_heap (t_e t))).
Proof.
  unfold Insert, aborted. destruct (t_err t) as [cause|] eqn:Herr; [done|].
  destruct (Engine_schema (t_e t) schema) as [s|e1]; [|done].
  destruct (Schema_Relation s relation) as [l|e1]; [|done].
  destruct (lock l t) as [t1|] eqn:Hlock; simpl; [|done].
  destruct (e_heap (t_e t1) !! l) as [r1|] eqn:Hr1; simpl; [|done].
  destruct (insertLoop relation (r_attributes r1) values []) as [[res attrs'] vs'].
  destruct res as [vals|e1]; [|done].
  destruct (map_to_list vs'); [|done]. intros [= <- _ <-]. simpl.
  destruct (lock_same_log l t t1 Hlock) as (Hc & He & _).
  destruct (lock_heap l t t1 Hlock) as (r & Hr & Hnext & _).
  exists l. rewrite He, Hc, Hnext. repeat split; try done.
  intros l'. rewrite !lookup_alter. case_decide as Hl'.
  - subst l'. rewrite lookup_insert_eq, Hr. simpl.
    destruct (lock_lookup l t t1 r1 Hlock Hr1) as (r' & Hr' & _ & Hd).
    rewrite Hr in Hr'. injection Hr' as <-.
    unfold data_of in *. simpl. by injection Hd as -> ->.
  - rewrite lookup_insert_ne by done. by apply lock_same_data with l.
Qed.

Lemma remove_fresh_tuple (tuple : Tuple) (tuples : list Tuple) :
  (∀ tp, tp ∈ tuples → (tp_id tp < tp_id tuple)%nat) →
  remove_tuple (tp_id tuple) (tuples ++ [tuple]) = tuples.
Proof.
  intros Hfresh. unfold remove_tuple. rewrite filter_app.
  rewrite filter_cons_False by (by intros []). rewrite filter_nil, app_nil_r.
  induction tuples as [|tp rest IH]; [done|].
  rewrite filter_cons_True.
  - f_equal. apply IH. intros tp' Hin. apply Hfresh. by apply list_elem_of_further.
  - specialize (Hfresh tp (list_elem_of_here _ _)). lia.
Qed.

Lemma undo_insert_push_tuple (tuple : Tuple) (r : Relation) :
  (∀ tp, tp ∈ r_rows r → (tp_id tp < tp_id tuple)%nat) →
  (∀ i tp, i ∈ r_indexes r → tp ∈ i_tuples i → (tp_id tp < tp_id tuple)%nat) →
  data_of (undo_insert tuple (push_tuple tuple r)) = data_of r.
Proof.
  intros Hrows Hidx. unfold data_of. simpl. f_equal.
  - by apply remove_fresh_tuple.
  - induction (r_indexes r) as [|i rest IH]; [done|]. simpl. f_equal.
    + destruct i as [name rel attrs pos tuples]. unfold Index_Remove, Index_Add.
      simpl. f_equal. apply remove_fresh_tuple. intros tp Hin.
      apply (Hidx _ tp (list_elem_of_here _ _)). done.
    + apply IH. intros i' tp Hi'. apply Hidx. by apply list_elem_of_further.
Qed.

Lemma fresh_ids_same_data (e e' : Engine) :
  fresh_ids e → same_data (e_heap e') (e_heap e) → (e_next e ≤ e_next e')%nat →
  fresh_ids e'.
Proof.
  intros Hfresh Hd Hnext l r' Hr'. specialize (Hd l). rewrite Hr' in Hd.
  destruct (e_heap e !! l) as [r|] eqn:Hr; [|done]. injection Hd as Hrows Hidx.
  destruct (Hfresh l r Hr) as [H1 H2]. rewrite Hrows, Hidx. split.
  - intros tp Hin. specialize (H1 tp Hin). lia.
  - intros i tp Hi Hin. specialize (H2 i tp Hi Hin). lia.
Qed.

Lemma fresh_ids_push (e : Engine) (h' : gmap loc Relation) (tuple : Tuple) (l : loc) :
  fresh_ids e → tp_id tuple = e_next e →
  same_data h' (alter (push_tuple tuple) l (e_heap e)) →
  fresh_ids (mkEngine (e_schemas e) h' (S (e_next e))).
Proof.
  intros Hfresh Hid Hd l' r' Hr'. simpl in *. specialize (Hd l'). rewrite Hr' in Hd.
  rewrite lookup_alter in Hd.
  assert (∀ r, e_heap e !! l' = Some r →
               (∀ tp, tp ∈ r_rows r → (tp_id tp < S (e_next e))%nat)
               ∧ (∀ i tp, i ∈ r_indexes r → tp ∈ i_tuples i →
                          (tp_id tp < S (e_next e))%nat)) as Hold.
  { intros r Hr. destruct (Hfresh l' r Hr) as [H1 H2]. split.
    - intros tp Hin. specialize (H1 tp Hin). lia.
    - intros i tp Hi Hin. specialize (H2 i tp Hi Hin). lia. }
  case_decide as Hl.
  - subst l'. destruct (e_heap e !! l) as [r|] eqn:Hr; [|done].
    injection Hd as Hrows Hidx. destruct (Hold r eq_refl) as [H1 H2].
    rewrite Hrows, Hidx. simpl. split.
    + intros tp [Hin|Hin%list_elem_of_singleton]%elem_of_app; [by apply H1|].
      subst tp. lia.
    + intros i tp (i0 & -> & Hi0)%list_elem_of_fmap. simpl.
      intros [Hin|Hin%list_elem_of_singleton]%elem_of_app; [by eapply H2|].
      subst tp. lia.
  - destruct (e_heap e !! l') as [r|] eqn:Hr; [|done].
    injection Hd as Hrows Hidx. destruct (Hold r eq_refl) as [H1 H2].
    by rewrite Hrows, Hidx.
Qed.

Lemma undo_push_same_data (e : Engine) (tuple : Tuple) (l : loc) :
  fresh_ids e → tp_id tuple = e_next e →
  same_data (undo_heap (ValueChange tuple l) (alter (push_tuple tuple) l (e_heap e)))
            (e_heap e).
Proof.
  intros Hfresh Hid l'. simpl. rewrite !lookup_alter.
  case_decide; [subst l'; rewrite decide_True by done|done].
  destruct (e_heap e !! l) as [r|] eqn:Hr; simpl; [|done]. f_equal.
  destruct (Hfresh l r Hr) as [H1 H2]. rewrite <- Hid in H1, H2.
  by apply undo_insert_push_tuple.
Qed.

(** The entries that a run of inserts pushes, undone from the last to the
    first, give back the rows and the indexes of before the run. *)
Lemma insertAll_undone (calls : list (string * string * gmap string Value))
    (t tn : Transaction) (tuples : list Tuple) :
  fresh_ids (t_e t) →
  t_err t = None →
  insertAll calls t = Some (tuples, tn) →
  ∃ cs, t_changes tn = t_changes t ++ cs
      ∧ t_err tn = None
      ∧ Forall2 (λ c tuple, ∃ l, c = ValueChange tuple l) cs tuples
      ∧ same_data (foldl (λ h c, undo_heap c h) (e_heap (t_e tn)) (rev cs))
                  (e_heap (t_e t)).
Proof.
  revert t tuples. induction calls as [|[[schema relation] values] rest IH];
    intros t tuples Hfresh Herr; simpl.
  - intros [= <- <-]. exists []. rewrite app_nil_r. repeat split; try done.
  - destruct (Insert schema relation values t) as [[[[tuple|e1] vs'] t1]|] eqn:Hins;
      [|done|done].
    destruct (insertAll rest t1) as [[tuples' tn']|] eqn:Hrest; simpl; [|done].
    intros [= <- <-].
    destruct (Insert_ok _ _ _ _ _ _ _ Hins) as (l & _ & Herr1 & Hc1 & Hid & Hnext & Hd1).
    assert (fresh_ids (t_e t1)) as Hfresh1.
    { pose proof (fresh_ids_push (t_e t) (e_heap (t_e t1)) tuple l Hfresh Hid Hd1) as H.
      intros l' r' Hr'. destruct (H l' r' Hr') as [H1 H2]. simpl in *.
      rewrite Hnext. by split. }
    destruct (IH t1 tuples' Hfresh1 Herr1 Hrest) as (cs & Hcs & Herrn & Hall & Hd).
    exists (ValueChange tuple l :: cs). split; [|split; [done|split]].
    + by rewrite Hcs, Hc1, <- app_assoc.
    + constructor; [by exists l|done].
    + simpl. rewrite foldl_app. simpl.
      etransitivity; [apply (undo_heap_same_data (ValueChange tuple l) _ _ Hd)|].
      etransitivity; [apply (undo_heap_same_data (ValueChange tuple l) _ _ Hd1)|].
      by apply undo_push_same_data.
Qed.

(** C5. In a transaction with an empty change log, after any run of
    [Insert] calls that all succeed, [Rollback] undoes the entries of the
    log from the last pushed to the first, one entry for each inserted
    tuple, and then every relation has the rows, in the same order, and the
    indexes that it had before the run; the log is empty. *)
Theorem inserts_then_Rollback_restore (calls : list (string * string * gmap string Value))
    (t tn : Transaction) (tuples : list Tuple) :
  fresh_ids (t_e t) →
  t_err t = None →
  t_changes t = [] →
  insertAll calls t = Some (tuples, tn) →
  same_data (e_heap (t_e (Rollback tn))) (e_heap (t_e t))
  ∧ Forall2 (λ c tuple, ∃ l, c = ValueChange tuple l) (t_changes tn) tuples
  ∧ Rollback tn = unlock (rollbackLoop (rev (t_changes tn)) tn)
  ∧ t_changes (Rollback tn) = [].
Proof.
  intros Hfresh Herr Hlog Hrun.
  destruct (insertAll_undone calls t tn tuples Hfresh Herr Hrun)
    as (cs & Hcs & Herrn & Hall & Hd).
  rewrite Hlog in Hcs. simpl in Hcs. rewrite Hcs.
  split; [|split; [done|split]].
  - rewrite (Rollback_active tn Herrn).
    etransitivity; [apply unlock_same_data|].
    by rewrite rollbackLoop_heap, Hcs.
  - by rewrite (Rollback_active tn Herrn), Hcs.
  - by apply Rollback_result.
Qed.

(** ** The planner: the source of a relation *)

Local Abbreviation chooseIndex' := (chooseIndex CanSourceWith NewHashIndexSource).
Local Abbreviation recCanUseIndex' := (recCanUseIndex CanSourceWith).

(** [sourceCost] is not reset from one relation to the next: once a
    relation has taken an index of cost [c > 0], no index of cost [c] or
    more is taken for a later relation, applicable as it may be. *)
Lemma chooseIndex_keeps_cost (rname : string) (indexes : list Index)
    (p : Predicate) (sources : gmap string Source) (c : Z) :
  (0 < c)%Z →
  (∀ index cost p', index ∈ indexes →
     recCanUseIndex' rname index p = Some (cost, p') → (c ≤ cost)%Z) →
  chooseIndex' rname indexes p sources c = (sources, c).
Proof.
  intros Hc. induction indexes as [|index rest IH]; intros Hcost; simpl; [done|].
  assert (chooseIndex' rname rest p sources c = (sources, c)) as Hrest.
  { apply IH. intros index' cost p' Hin. apply Hcost. by apply list_elem_of_further. }
  destruct (recCanUseIndex' rname index p) as [[cost p']|] eqn:Hcan; [|done].
  specialize (Hcost index cost p' (list_elem_of_here _ _) Hcan).
  replace (c =? 0)%Z with false by (symmetry; apply Z.eqb_neq; lia).
  replace (cost <? c)%Z with false by (symmetry; apply Z.ltb_ge; lia).
  done.
Qed.

(** [index] is the choice of the specification among [indexes]: it is at
    position [n], applicable at cost [c], no applicable index costs less,
    and the applicable indexes declared before it cost more. *)
Definition cheapest_first (rname : string) (indexes : list Index) (p : Predicate)
    (n : nat) (index : Index) (c : Z) (p' : Predicate) : Prop :=
  indexes !! n = Some index
  ∧ recCanUseIndex' rname index p = Some (c, p')
  ∧ ∀ m index_m cost_m p_m,
      indexes !! m = Some index_m →
      recCanUseIndex' rname index_m p = Some (cost_m, p_m) →
      (c ≤ cost_m)%Z ∧ ((m < n)%nat → (c < cost_m)%Z).

Lemma cheapest_first_here (rname : string) (index : Index) (rest : list Index)
    (p : Predicate) (c : Z) (p' : Predicate) :
  recCanUseIndex' rname index p = Some (c, p') →
  (∀ index' cost q, index' ∈ rest →
     recCanUseIndex' rname index' p = Some (cost, q) → (c ≤ cost)%Z) →
  cheapest_first rname (index :: rest) p 0 index c p'.
Proof.
  intros Hcan Hrest. split; [done|]. split; [done|].
  intros [|m] index_m cost_m p_m Hm Hcan_m; simpl in Hm.
  - injection Hm as <-. rewrite Hcan in Hcan_m. injection Hcan_m as <- _. lia.
  - split; [|lia]. apply list_elem_of_lookup_2 in Hm. by eapply Hrest.
Qed.

Lemma cheapest_first_later (rname : string) (index : Index) (rest : list Index)
    (p : Predicate) (n : nat) (chosen : Index) (c : Z) (p' : Predicate) :
  cheapest_first rname rest p n chosen c p' →
  (∀ cost q, recCanUseIndex' rname index p = Some (cost, q) → (c < cost)%Z) →
  cheapest_first rname (index :: rest) p (S n) chosen c p'.
Proof.
  intros (Hn & Hcan & Hmin) Hhead. split; [done|]. split; [done|].
  intros [|m] index_m cost_m p_m Hm Hcan_m; simpl in Hm.
  - injection Hm as <-. specialize (Hhead _ _ Hcan_m). lia.
  - destruct (Hmin m index_m cost_m p_m Hm Hcan_m) as [Hle Hlt]. split; [done|].
    intros Hlt'. apply Hlt. lia.
Qed.

(** The loop over the indexes of one relation, entered with the cost [c] of
    the source chosen so far ([0]: none): it leaves things as they are when
    no applicable index costs less than [c], and otherwise takes the
    cheapest applicable index, the first declared among equals. Costs are
    taken positive and the construction of the source successful. *)
Lemma chooseIndex_takes_cheapest (rname : string) (indexes : list Index)
    (p : Predicate) (sources : gmap string Source) (c : Z) :
  (0 ≤ c)%Z →
  (∀ index cost p', index ∈ indexes →
     recCanUseIndex' rname index p = Some (cost, p') →
     (0 < cost)%Z ∧ ∃ src, NewHashIndexSource index p' = Ok src) →
  (chooseIndex' rname indexes p sources c = (sources, c)
   ∧ ∀ index cost p', index ∈ indexes →
       recCanUseIndex' rname index p = Some (cost, p') → (0 < c ≤ cost)%Z)
  ∨ (∃ n index c' p' src,
       cheapest_first rname indexes p n index c' p'
       ∧ NewHashIndexSource index p' = Ok src
       ∧ (c = 0 ∨ c' < c)%Z
       ∧ chooseIndex' rname indexes p sources c = (<[rname := src]> sources, c')).
Proof.
  revert sources c. induction indexes as [|index rest IH]; intros sources c Hc Hpos.
  { left. split; [done|]. intros index cost p' Hin. by apply elem_of_nil in Hin. }
  assert (∀ index' cost p', index' ∈ rest →
            recCanUseIndex' rname index' p = Some (cost, p') →
            (0 < cost)%Z ∧ ∃ src, NewHashIndexSource index' p' = Ok src) as Hpos'.
  { intros index' cost p' Hin. apply Hpos. by apply list_elem_of_further. }
  simpl. destruct (recCanUseIndex' rname index p) as [[k pk]|] eqn:Hcan.
  2:{ destruct (IH sources c Hc Hpos')
        as [[Heq Hall]|(n & i & c' & p' & src & Hbest & Hsrc & Hlt & Heq)].
      - left. split; [done|]. intros index' cost p' [->|Hin]%elem_of_cons Hcan'.
        + by rewrite Hcan in Hcan'.
        + by eapply Hall.
      - right. exists (S n), i, c', p', src. split; [|done].
        apply cheapest_first_later; [done|]. intros cost q Hcan'.
        by rewrite Hcan in Hcan'. }
  destruct (Hpos index k pk (list_elem_of_here _ _) Hcan) as [Hk [src Hsrc]].
  destruct ((c =? 0)%Z || (k <? c)%Z) eqn:Htest.
  - rewrite Hsrc.
    assert (c = 0 ∨ k < c)%Z as Hlt.
    { apply orb_true_iff in Htest as [H%Z.eqb_eq|H%Z.ltb_lt]; [by left|by right]. }
    destruct (IH (<[rname := src]> sources) k (Z.lt_le_incl _ _ Hk) Hpos')
      as [[Heq Hall]|(n & i & c' & p' & src' & Hbest & Hsrc' & Hlt' & Heq)].
    + right. exists 0%nat, index, k, pk, src. split; [|done].
      apply cheapest_first_here; [done|]. intros index' cost q Hin Hcan'.
      by apply (Hall index' cost q Hin Hcan').
    + right. exists (S n), i, c', p', src'.
      assert (c' < k)%Z as Hc'k by (destruct Hlt' as [->|?]; lia).
      split; [|split; [done|split]].
      * apply cheapest_first_later; [done|]. intros cost q Hcan'.
        rewrite Hcan in Hcan'. injection Hcan' as <- _. done.
      * destruct Hlt as [->|?]; [by left|right; lia].
      * by rewrite Heq, insert_insert_eq.
  - apply orb_false_iff in Htest as [Hc0%Z.eqb_neq Hkc%Z.ltb_ge].
    destruct (IH sources c Hc Hpos')
      as [[Heq Hall]|(n & i & c' & p' & src' & Hbest & Hsrc' & Hlt' & Heq)].
    + left. split; [done|]. intros index' cost p' [->|Hin]%elem_of_cons Hcan'.
      * rewrite Hcan in Hcan'. injection Hcan' as <- _. lia.
      * by eapply Hall.
    + right. exists (S n), i, c', p', src'.
      assert (c' < c)%Z as Hc'c by (destruct Hlt' as [->|?]; lia).
      split; [|done].
      apply cheapest_first_later; [done|]. intros cost q Hcan'.
      rewrite Hcan in Hcan'. injection Hcan' as <- _. lia.
Qed.

(** For the relation that the loop of stage (2) visits first, where
    [sourceCost] is still 0, the choice is the one of the specification:
    the cheapest applicable index, the first declared among equals, and the
    sequential scan when no index applies. *)
Lemma first_relation_source (k : string) (l : loc) (r : Relation)
    (h : gmap loc Relation) (p : Predicate) :
  h !! l = Some r →
  (∀ index cost p', index ∈ r_indexes r →
     recCanUseIndex' (r_name r) index p = Some (cost, p') →
     (0 < cost)%Z ∧ ∃ src, NewHashIndexSource index p' = Ok src) →
  (chooseSources CanSourceWith NewHashIndexSource [(k, l)] h p ∅ 0%Z
   = Some ({[ r_name r := SeqScan l ]}, 0%Z)
   ∧ ∀ index, index ∈ r_indexes r → recCanUseIndex' (r_name r) index p = None)
  ∨ (∃ n index c p' src,
       cheapest_first (r_name r) (r_indexes r) p n index c p'
       ∧ NewHashIndexSource index p' = Ok src
       ∧ chooseSources CanSourceWith NewHashIndexSource [(k, l)] h p ∅ 0%Z
         = Some ({[ r_name r := src ]}, c)).
Proof.
  intros Hr Hpos. simpl. rewrite Hr. simpl.
  destruct (chooseIndex_takes_cheapest (r_name r) (r_indexes r) p ∅ 0%Z
              (Z.le_refl _) Hpos)
    as [[Heq Hall]|(n & i & c' & p' & src & Hbest & Hsrc & _ & Heq)]; rewrite Heq.
  - left. rewrite lookup_empty, insert_empty. split; [done|].
    intros index Hin. destruct (recCanUseIndex' (r_name r) index p) as [[cost p']|] eqn:Hcan;
      [|done]. specialize (Hall index cost p' Hin Hcan). lia.
  - right. exists n, i, c', p', src. rewrite lookup_insert_eq, insert_empty.
    split; [done|]. by split.
Qed.

(** ** Locks and the change log *)

(** [lock] keeps the names of the relations and the locks already held,
    and the name of the relation that it is given is then a key of the lock
    map. *)
Lemma lock_names (l : loc) (t t1 : Transaction) :
  lock l t = Some t1 →
  (∀ l', r_name <$> e_heap (t_e t1) !! l' = r_name <$> e_heap (t_e t) !! l')
  ∧ (∀ name, is_Some (t_locks t !! name) → is_Some (t_locks t1 !! name))
  ∧ ∃ r, e_heap (t_e t) !! l = Some r ∧ is_Some (t_locks t1 !! r_name r).
Proof.
  unfold lock. intros H.
  destruct (e_heap (t_e t) !! l) as [r|] eqn:Hr; simpl in H; [|done].
  destruct (t_locks t !! r_name r) as [held|] eqn:Hheld.
  - injection H as <-. repeat split; try done. exists r. by rewrite Hheld.
  - destruct (r_locked r); [done|]. injection H as <-. simpl. split; [|split].
    + intros l'. rewrite lookup_insert. case_decide; [subst l'|done]. by rewrite Hr.
    + intros name Hname. rewrite lookup_insert. by case_decide.
    + exists r. by rewrite lookup_insert_eq.
Qed.

(** [Insert] locks the relation before it pushes its change: the locks
    cover the log afterwards when they did before. *)
Lemma Insert_keeps_locks_cover_log (schema relation : string)
    (values values' : gmap string Value) (t t' : Transaction) (res : result Tuple) :
  locks_cover_log t →
  Insert schema relation values t = Some (res, values', t') →
  locks_cover_log t'.
Proof.
  intros Hcover Hins.
  destruct (t_err t) as [cause|] eqn:Herr.
  { unfold Insert, aborted in Hins. rewrite Herr in Hins. by injection Hins as _ _ <-. }
  destruct res as [tuple|err].
  2:{ destruct (Insert_fails_by_abort _ _ _ _ _ _ _ Herr Hins) as (t0 & (_ & He & _) & ->).
      rewrite Herr in He. destruct (abort_result err t0 He) as (Hc & _ & _).
      intros c l0 r0 Hin. rewrite Hc in Hin. by apply elem_of_nil in Hin. }
  unfold Insert in Hins. rewrite (aborted_active t Herr) in Hins.
  destruct (Engine_schema (t_e t) schema) as [s|e1]; [|done].
  destruct (Schema_Relation s relation) as [l|e1]; [|done].
  destruct (lock l t) as [t1|] eqn:Hlock; simpl in Hins; [|done].
  destruct (e_heap (t_e t1) !! l) as [r1|] eqn:Hr1; simpl in Hins; [|done].
  destruct (insertLoop relation (r_attributes r1) values []) as [[res attrs'] vs'].
  destruct res as [vals|e1]; [|done].
  destruct (map_to_list vs'); [|done]. injection Hins as _ _ <-.
  destruct (lock_names l t t1 Hlock) as (Hnames & Hgrow & r & Hr & Hheld).
  destruct (lock_same_log l t t1 Hlock) as (Hc & _ & _).
  assert (∀ l', r_name <$>
                  alter (push_tuple (mkTuple (e_next (t_e t1)) vals)) l
                    (<[l := set_attributes attrs' r1]> (e_heap (t_e t1))) !! l'
                = r_name <$> e_heap (t_e t) !! l') as Hnames'.
  { intros l'. rewrite lookup_alter. case_decide as Hl'.
    - subst l'. rewrite lookup_insert_eq. simpl.
      rewrite <- Hnames, Hr1. done.
    - rewrite lookup_insert_ne by done. apply Hnames. }
  intros c l0 r0. simpl. rewrite Hc. intros Hin Htouch Hr0.
  pose proof (Hnames' l0) as Hn0. rewrite Hr0 in Hn0. simpl in Hn0.
  destruct (e_heap (t_e t) !! l0) as [r0'|] eqn:Hr0'; [|done].
  injection Hn0 as Hn0. rewrite Hn0.
  apply elem_of_app in Hin as [Hin|Hin%list_elem_of_singleton].
  - apply Hgrow. by apply (Hcover c l0 r0').
  - subst c. apply list_elem_of_singleton in Htouch as ->.
    rewrite Hr in Hr0'. by injection Hr0' as <-.
Qed.

(** [CreateRelation] locks the new relation after it has pushed its change:
    the locks cover the log afterwards when they did before. *)
Lemma CreateRelation_keeps_locks_cover_log (schemaName relName : string)
    (attributes : list Attribute) (pk : list string)
    (t t' : Transaction) (res : option error) :
  locks_cover_log t →
  CreateRelation schemaName relName attributes pk t = Some (res, t') →
  locks_cover_log t'.
Proof.
  intros Hcover. unfold CreateRelation.
  destruct (t_err t) as [cause|] eqn:Herr.
  { unfold aborted. rewrite Herr. by intros [= _ <-]. }
  rewrite (aborted_active t Herr). unfold Engine_createRelation.
  destruct (Engine_schema (t_e t) schemaName) as [s|e1].
  2:{ intros [= _ <-]. destruct (abort_result e1 t Herr) as (Hc & _ & _).
      intros c l0 r0 Hin. rewrite Hc in Hin. by apply elem_of_nil in Hin. }
  destruct (s !! relName).
  { intros [= _ <-].
    destruct (abort_result (ErrRelationExists relName) t Herr) as (Hc & _ & _).
    intros c l0 r0 Hin. rewrite Hc in Hin. by apply elem_of_nil in Hin. }
  set (l := e_next (t_e t)).
  destruct (lock l _) as [t1|] eqn:Hlock; simpl; [|done]. intros [= _ <-].
  destruct (lock_names _ _ _ Hlock) as (Hnames & Hgrow & r & Hr & Hheld).
  destruct (lock_same_log _ _ _ Hlock) as (Hc & _ & _).
  simpl in *. rewrite lookup_insert_eq in Hr. injection Hr as <-.
  intros c l0 r0. rewrite Hc. intros Hin Htouch Hr0.
  pose proof (Hnames l0) as Hn0. rewrite Hr0, lookup_insert in Hn0.
  case_decide as Hl0; simpl in Hn0.
  - injection Hn0 as Hn0. by rewrite Hn0.
  - destruct (e_heap (t_e t) !! l0) as [r0'|] eqn:Hr0'; [|done].
    injection Hn0 as Hn0. rewrite Hn0. apply Hgrow.
    apply elem_of_app in Hin as [Hin|Hin%list_elem_of_singleton].
    + by apply (Hcover c l0 r0').
    + subst c. simpl in Htouch. by apply list_elem_of_singleton in Htouch.
Qed.

End Properties.

(** * Runs of the model *)

Import Sample.

(** ** Commit and Rollback *)

Lemma Commit_counts_empties_releases_witness :
  t_err after_insert = None
  ∧ ∃ t', Commit after_insert = (Ok 1%nat, t')
        ∧ t_changes t' = []
        ∧ t_locks t' = ∅
        ∧ ∀ name l r, t_locks after_insert !! name = Some l →
                      e_heap (t_e t') !! l = Some r → r_locked r = false.
Proof.
  split; [vm_compute; reflexivity|].
  destruct (Commit_counts_empties_releases after_insert) as [H _].
  destruct (H eq_refl) as (t' & H1 & H2 & H3 & _ & H5).
  exists t'. by repeat split.
Defined.

Lemma reopened_Insert_runs :
  Insert "public" "account" row2 reopened = Some (Ok tuple2, ∅, after_reinsert).
Proof. vm_compute; reflexivity. Qed.

(** C1, the code at the failing input. [Rollback] on a transaction that has
    inserted a row leaves the latch empty, where [Commit] sets it: the next
    [Insert] is executed, it adds its row and takes the lock of the
    relation again. *)
Theorem Rollback_leaves_transaction_open :
  t_err (Rollback after_insert) = None
  ∧ t_locks (Rollback after_insert) = ∅
  ∧ t_err (Commit after_insert).2 = Some ErrCommitted
  ∧ Insert "public" "account" row2 (Rollback after_insert)
    = Some (Ok tuple2, ∅, after_reinsert)
  ∧ r_rows <$> (e_heap (t_e after_reinsert) !! 0%nat) = Some [tuple2]
  ∧ t_locks after_reinsert !! "account" = Some 0%nat
  ∧ t_changes after_reinsert = [ValueChange tuple2 0%nat].
Proof.
  split; [vm_compute; reflexivity|]. split; [vm_compute; reflexivity|]. split; [vm_compute; reflexivity|].
  split; [exact reopened_Insert_runs|]. repeat split; vm_compute; reflexivity.
Qed.

(** ** A failing operation *)




(** ** Insert *)

Lemma lock_account : lock 0%nat (NewTransaction engine) = Some locked.
Proof. vm_compute; reflexivity. Qed.














(** ** Inserts, then Rollback *)

Lemma engine2_fresh_ids : fresh_ids engine2.
Proof.
  intros l r Hr. unfold engine2 in Hr. simpl in Hr.
  apply lookup_insert_Some in Hr as [[<- <-]|[_ Hr]].
  - split.
    + intros tp Hin. by apply elem_of_nil in Hin.
    + intros i tp Hi Hin. apply list_elem_of_singleton in Hi as ->.
      by apply elem_of_nil in Hin.
  - apply lookup_singleton_Some in Hr as [<- <-]. split.
    + intros tp Hin. by apply elem_of_nil in Hin.
    + intros i tp Hi Hin. apply list_elem_of_singleton in Hi as ->.
      by apply elem_of_nil in Hin.
Qed.

Lemma two_rows_run :
  insertAll two_rows (NewTransaction engine2) = Some (two_tuples, after_two_rows).
Proof. vm_compute; reflexivity. Qed.

Lemma two_rows_stored :
  r_rows <$> (e_heap (t_e after_two_rows) !! 0%nat) = Some two_tuples
  ∧ (λ r, i_tuples <$> r_indexes r) <$> (e_heap (t_e after_two_rows) !! 0%nat)
    = Some [two_tuples].
Proof. split; vm_compute; reflexivity. Qed.

Lemma inserts_then_Rollback_restore_witness :
  fresh_ids engine2
  ∧ t_err (NewTransaction engine2) = None
  ∧ t_changes (NewTransaction engine2) = []
  ∧ insertAll two_rows (NewTransaction engine2) = Some (two_tuples, after_two_rows)
  ∧ r_rows <$> (e_heap (t_e after_two_rows) !! 0%nat) = Some two_tuples
  ∧ (λ r, i_tuples <$> r_indexes r) <$> (e_heap (t_e after_two_rows) !! 0%nat)
    = Some [two_tuples]
  ∧ same_data (e_heap (t_e (Rollback after_two_rows))) (e_heap engine2)
  ∧ t_changes (Rollback after_two_rows) = [].
Proof.
  destruct (inserts_then_Rollback_restore (GV := sqlValues)
              two_rows (NewTransaction engine2) after_two_rows two_tuples
              engine2_fresh_ids eq_refl eq_refl two_rows_run) as (Hd & _ & _ & Hc).
  destruct two_rows_stored as [Hrows Hidx].
  split; [exact engine2_fresh_ids|]. split; [reflexivity|]. split; [reflexivity|].
  split; [exact two_rows_run|]. split; [exact Hrows|]. split; [exact Hidx|].
  split; [exact Hd|exact Hc].
Defined.

(** ** Locks and the change log *)

Lemma account_dropped :
  DropRelation "public" "account" (NewTransaction engine) = Some (None, after_drop).
Proof. vm_compute; reflexivity. Qed.

(** C9, the code at the failing input. [DropRelation] on a new transaction
    returns no error and pushes the change that records the dropped
    relation, without a call to [lock]: the lock map is empty and does not
    cover the log. *)
Theorem DropRelation_takes_no_lock :
  locks_cover_log (NewTransaction engine)
  ∧ DropRelation "public" "account" (NewTransaction engine) = Some (None, after_drop)
  ∧ t_changes after_drop = [RelationChange "public" None (Some 0%nat)]
  ∧ t_locks after_drop = ∅
  ∧ ¬ locks_cover_log after_drop.
Proof.
  split.
  { intros c l r Hc. by apply elem_of_nil in Hc. }
  split; [exact account_dropped|]. split; [vm_compute; reflexivity|]. split; [vm_compute; reflexivity|].
  intros H.
  destruct (H (RelationChange "public" None (Some 0%nat)) 0%nat account) as [l Hl].
  - apply list_elem_of_here.
  - apply list_elem_of_here.
  - vm_compute; reflexivity.
  - by vm_compute in Hl.
Qed.

(** ** The planner *)

(** C2, the code at the failing input. The query names [a] and [b], which
    stage (1) has locked; each has a hash index that [recCanUseIndex] finds
    applicable, at cost 1. The relation that the loop visits first takes
    its index and leaves [sourceCost] at 1; for the relation visited next,
    [cost < sourceCost] is false and the sequential scan is chosen,
    although an index applies. *)
Theorem later_relation_scanned_despite_index :
  r_indexes rel_a = [index_a]
  ∧ r_indexes rel_b = [index_b]
  ∧ recCanUseIndex HashIndex_CanSourceWith "a" index_a where_xy = Some (1%Z, x_is_1)
  ∧ recCanUseIndex HashIndex_CanSourceWith "b" index_b where_xy = Some (1%Z, y_is_2)
  ∧ chooseSources HashIndex_CanSourceWith HashIndex_NewSource
      [("a", 0%nat); ("b", 1%nat)] (e_heap (t_e after_where_locks)) where_xy ∅ 0%Z
    = Some ({[ "a" := HashIndexSource index_a x_is_1; "b" := SeqScan 1%nat ]}, 1%Z)
  ∧ chooseSources HashIndex_CanSourceWith HashIndex_NewSource
      [("b", 1%nat); ("a", 0%nat)] (e_heap (t_e after_where_locks)) where_xy ∅ 0%Z
    = Some ({[ "a" := SeqScan 0%nat; "b" := HashIndexSource index_b y_is_2 ]}, 1%Z).
Proof. repeat split; vm_compute; reflexivity. Qed.

(** C3, the code at the failing input. On the same engine and the same
    query, two orders in which the [range] over the map [relations] may run
    give two execution trees: the relation visited first is read through
    its index and the other one scanned. This holds whatever [Less] the
    joiners are sorted by. *)
Theorem plans_differ_with_range_order (less : Joiner → Joiner → bool) :
  recLock "public" where_xy ∅ (NewTransaction engine2)
  = Some (None, relations_ab, after_where_locks)
  ∧ range_up relations_ab ≡ₚ map_to_list relations_ab
  ∧ range_down relations_ab ≡ₚ map_to_list relations_ab
  ∧ plan HashIndex_CanSourceWith HashIndex_NewSource (insertionSort less)
         (range_up relations_ab) (e_heap (t_e after_where_locks)) [] where_xy [a_join_b]
    = Some (Ok (SelectorNode []
              (JoinerNode "a" "b" (j_on a_join_b)
                 (Some (ScannerNode (mkScanner (HashIndexSource index_a x_is_1) [x_is_1])))
                 (Some (ScannerNode (mkScanner (SeqScan 1%nat) [y_is_2]))))))
  ∧ plan HashIndex_CanSourceWith HashIndex_NewSource (insertionSort less)
         (range_down relations_ab) (e_heap (t_e after_where_locks)) [] where_xy [a_join_b]
    = Some (Ok (SelectorNode []
              (JoinerNode "a" "b" (j_on a_join_b)
                 (Some (ScannerNode (mkScanner (SeqScan 0%nat) [x_is_1])))
                 (Some (ScannerNode (mkScanner (HashIndexSource index_b y_is_2) [y_is_2]))))))
  ∧ plan HashIndex_CanSourceWith HashIndex_NewSource (insertionSort less)
         (range_up relations_ab) (e_heap (t_e after_where_locks)) [] where_xy [a_join_b]
    ≠ plan HashIndex_CanSourceWith HashIndex_NewSource (insertionSort less)
           (range_down relations_ab) (e_heap (t_e after_where_locks)) [] where_xy [a_join_b].
Proof.
  split; [vm_compute; reflexivity|].
  split; [done|]. split; [apply reverse_Permutation|].
  split; [vm_compute; reflexivity|]. split; [vm_compute; reflexivity|].
  vm_compute. discriminate.
Qed.

(** * Further properties *)

Section MoreProperties.
Context {GV : GoValues}.
Variable CanSourceWith : Index → Predicate → bool * Z.
Variable NewHashIndexSource : Index → Predicate → result Source.
Variable sortJoiners : list Joiner → list Joiner.
Variable Exec : Engine → Node → result (list string * list Tuple).

Local Abbreviation Query' := (Query CanSourceWith NewHashIndexSource sortJoiners Exec).
Local Abbreviation run' := (run CanSourceWith NewHashIndexSource sortJoiners Exec).
Local Abbreviation plan' := (plan CanSourceWith NewHashIndexSource sortJoiners).
Local Abbreviation recCanUseIndex' := (recCanUseIndex CanSourceWith).
Local Abbreviation chooseIndex' := (chooseIndex CanSourceWith NewHashIndexSource).
Local Abbreviation chooseSources' := (chooseSources CanSourceWith NewHashIndexSource).
Local Abbreviation valid_source' := (valid_source CanSourceWith NewHashIndexSource).

(** ** NewRelation and Relation.Attribute *)

Lemma build_attrIndex_undeclared (attrs : list Attribute) (i : nat)
    (m : gmap string nat) (name : string) :
  name ∉ a_name <$> attrs →
  build_attrIndex attrs i m !! name = m !! name.
Proof.
  revert i m. induction attrs as [|a rest IH]; intros i m Hnot; simpl; [done|].
  rewrite fmap_cons in Hnot. apply not_elem_of_cons in Hnot as [Hne Hnot].
  rewrite IH by done. by apply lookup_insert_ne.
Qed.

(** The map [attrIndex] sends a declared name to the position of its last
    declaration. *)
Lemma build_attrIndex_declared (attrs : list Attribute) (i : nat)
    (m : gmap string nat) (name : string) :
  name ∈ a_name <$> attrs →
  ∃ j a, build_attrIndex attrs i m !! name = Some (i + j)%nat
       ∧ attrs !! j = Some a ∧ a_name a = name
       ∧ ∀ j' a', attrs !! j' = Some a' → a_name a' = name → (j' ≤ j)%nat.
Proof.
  revert i m. induction attrs as [|a0 rest IH]; intros i m Hin; simpl.
  { by apply elem_of_nil in Hin. }
  destruct (decide (name ∈ a_name <$> rest)) as [Hrest|Hrest].
  - destruct (IH (S i) (<[a_name a0 := i]> m) Hrest) as (j & a & Hl & Ha & Hn & Hmax).
    exists (S j), a. split; [by rewrite Hl, Nat.add_succ_r|]. split; [done|].
    split; [done|]. intros [|j'] a' Ha' Hn'; simpl in Ha'; [lia|].
    specialize (Hmax j' a' Ha' Hn'). lia.
  - rewrite fmap_cons in Hin. apply elem_of_cons in Hin as [->|Hin]; [|done].
    exists 0%nat, a0. rewrite build_attrIndex_undeclared by done.
    rewrite lookup_insert_eq, Nat.add_0_r. repeat split; try done.
    intros [|j'] a' Ha' Hn'; simpl in Ha'; [lia|]. exfalso. apply Hrest.
    apply list_elem_of_fmap. exists a'. split; [done|].
    by eapply list_elem_of_lookup_2.
Qed.

(** X1. On a relation built by [NewRelation], [Attribute(name)] returns,
    for a declared name, the position and the attribute of the last
    declaration of that name, and never reads [attributes] out of range;
    for any other name it returns the error "attribute not defined". *)
Theorem NewRelation_Attribute_round_trip (schema name : string)
    (attrs : list Attribute) (pk : list string) (attrName : string) :
  (attrName ∈ a_name <$> attrs →
   ∃ i a, Relation_Attribute (NewRelation schema name attrs pk) attrName
          = Some (Ok (i, a))
        ∧ attrs !! i = Some a ∧ a_name a = attrName
        ∧ ∀ j a', attrs !! j = Some a' → a_name a' = attrName → (j ≤ i)%nat)
  ∧ (attrName ∉ a_name <$> attrs →
     Relation_Attribute (NewRelation schema name attrs pk) attrName
     = Some (Err ErrAttributeNotDefined)).
Proof.
  unfold Relation_Attribute, NewRelation. simpl. split.
  - intros Hin.
    destruct (build_attrIndex_declared attrs 0 ∅ attrName Hin)
      as (j & a & Hl & Ha & Hn & Hmax).
    exists j, a. rewrite Hl. simpl. rewrite Ha. done.
  - intros Hnot. by rewrite build_attrIndex_undeclared, lookup_empty.
Qed.

Lemma unique_indexes_elem (schema name : string) (attrs : list Attribute)
    (i : nat) (index : Index) :
  index ∈ unique_indexes schema name attrs i ↔
  ∃ j a, attrs !! j = Some a ∧ a_unique a = true
       ∧ index = unique_index schema name (i + j) a.
Proof.
  revert i. induction attrs as [|a0 rest IH]; intros i; simpl.
  { split; [by intros ?%elem_of_nil|by intros (j & a & ? & _)]. }
  rewrite elem_of_app, IH. split.
  - intros [Hhere|(j & a & Ha & Hu & ->)].
    + destruct (a_unique a0) eqn:Hu; [|by apply elem_of_nil in Hhere].
      apply list_elem_of_singleton in Hhere as ->. exists 0%nat, a0.
      by rewrite Nat.add_0_r.
    + exists (S j), a. by rewrite Nat.add_succ_r.
  - intros ([|j] & a & Ha & Hu & ->); simpl in Ha.
    + injection Ha as <-. left. rewrite Hu, Nat.add_0_r.
      apply list_elem_of_here.
    + right. exists j, a. by rewrite Nat.add_succ_r.
Qed.

(** X2. [NewRelation] returns no error. Its indexes are a hash index on the
    primary key, whenever [pk] is not empty, and one hash index for each
    attribute declared unique, on the position of that attribute, and no
    other. A name of [pk] that is not declared does not stop it: its
    position reads as 0, the position of the first attribute. *)
Theorem NewRelation_indexes (schema name : string) (attrs : list Attribute)
    (pk : list string) (index : Index) :
  (index ∈ r_indexes (NewRelation schema name attrs pk) ↔
     (pk ≠ [] ∧ index = NewHashIndex ("pk_" ++ schema ++ "_" ++ name) name pk
                                     (r_pk (NewRelation schema name attrs pk)))
     ∨ ∃ i a, attrs !! i = Some a ∧ a_unique a = true
            ∧ index = unique_index schema name i a)
  ∧ length (r_pk (NewRelation schema name attrs pk)) = length pk
  ∧ ∀ n k, pk !! n = Some k →
      (k ∉ a_name <$> attrs →
       r_pk (NewRelation schema name attrs pk) !! n = Some 0%nat)
      ∧ (k ∈ a_name <$> attrs →
         ∃ i a, r_pk (NewRelation schema name attrs pk) !! n = Some i
              ∧ attrs !! i = Some a ∧ a_name a = k).
Proof.
  unfold NewRelation. simpl. split; [|split].
  - rewrite elem_of_app, unique_indexes_elem. unfold build_pk. rewrite length_map.
    split.
    + intros [Hpk|Hu]; [left|right; done].
      case_decide as Hlen; [|by apply elem_of_nil in Hpk].
      apply list_elem_of_singleton in Hpk. split; [|done].
      intros ->. by apply Hlen.
    + intros [[Hpk ->]|Hu]; [left|right; done].
      rewrite decide_True; [apply list_elem_of_here|].
      destruct pk; [done|]. simpl. lia.
  - unfold build_pk. by rewrite length_map.
  - intros n k Hk. unfold build_pk. rewrite list_lookup_fmap, Hk. simpl. split.
    + intros Hnot. by rewrite build_attrIndex_undeclared, lookup_empty.
    + intros Hin.
      destruct (build_attrIndex_declared attrs 0 ∅ k Hin)
        as (j & a & Hl & Ha & Hn & _).
      exists j, a. by rewrite Hl.
Qed.

(** ** Locks *)

(** X3. Taking a lock is idempotent in a transaction: once [lock] has
    returned for a relation, a second [lock] on it returns at once and
    changes nothing; the transaction does not wait on a mutex that it
    holds itself. *)
Theorem lock_twice (l : loc) (t t1 : Transaction) :
  lock l t = Some t1 → lock l t1 = Some t1.
Proof.
  unfold lock. intros H.
  destruct (e_heap (t_e t) !! l) as [r|] eqn:Hr; simpl in H; [|done].
  destruct (t_locks t !! r_name r) as [held|] eqn:Hheld.
  - injection H as <-. by rewrite Hr; simpl; rewrite Hheld.
  - destruct (r_locked r); [done|]. injection H as <-. simpl.
    rewrite lookup_insert_eq. simpl. by rewrite lookup_insert_eq.
Qed.

Lemma unlock_all_is_Some (held : list (string * loc)) (h : gmap loc Relation) (l : loc) :
  is_Some (unlock_all held h !! l) ↔ is_Some (h !! l).
Proof.
  rewrite unlock_all_lookup. case_decide; [|done]. by rewrite fmap_is_Some.
Qed.

Lemma unlock_is_Some (t : Transaction) (l : loc) :
  is_Some (e_heap (t_e (unlock t)) !! l) ↔ is_Some (e_heap (t_e t) !! l).
Proof. apply unlock_all_is_Some. Qed.

Lemma undo_all_is_Some (back : list Change) (h : gmap loc Relation) (l : loc) :
  is_Some (foldl (λ h c, undo_heap c h) h back !! l) ↔ is_Some (h !! l).
Proof.
  revert h. induction back as [|c rest IH]; intros h; simpl; [done|].
  rewrite IH. destruct c as [current l0|]; simpl; [|done].
  rewrite lookup_alter. case_decide; [subst l0|done]. by rewrite fmap_is_Some.
Qed.

Lemma undo_all_names (back : list Change) (h : gmap loc Relation) (l : loc) :
  (λ r, (r_name r, r_locked r)) <$> foldl (λ h c, undo_heap c h) h back !! l
  = (λ r, (r_name r, r_locked r)) <$> h !! l.
Proof.
  revert h. induction back as [|c rest IH]; intros h; simpl; [done|].
  rewrite IH. destruct c as [current l0|]; simpl; [|done].
  rewrite lookup_alter. case_decide; [subst l0|done]. by destruct (h !! l).
Qed.

(** X4. After [Commit], and after [Rollback], on a transaction whose latch
    is empty, the mutex of every relation that the transaction had locked
    is free: a new transaction on the engine locks it without waiting. *)
Theorem released_relation_can_be_locked (t : Transaction) (name : string)
    (l : loc) (r : Relation) :
  t_err t = None →
  t_locks t !! name = Some l →
  e_heap (t_e t) !! l = Some r →
  (∃ t1, lock l (NewTransaction (t_e (Commit t).2)) = Some t1
         ∧ t_locks t1 = {[ r_name r := l ]})
  ∧ (∃ t1, lock l (NewTransaction (t_e (Rollback t))) = Some t1
           ∧ t_locks t1 = {[ r_name r := l ]}).
Proof.
  intros Herr Hname Hr.
  assert (l ∈ held_relations t) as Hheld by (apply held_relations_lookup; eauto).
  split.
  - unfold Commit. rewrite (aborted_active t Herr). unfold lock. simpl.
    rewrite unlock_all_lookup. simpl.
    rewrite decide_True by done. rewrite Hr. simpl.
    rewrite lookup_empty. eexists. split; [reflexivity|]. simpl.
    by rewrite insert_empty.
  - rewrite (Rollback_active t Herr). unfold lock. simpl.
    rewrite unlock_all_lookup.
    destruct (rollbackLoop_frame (rev (t_changes t)) t) as [Hlocks _].
    rewrite Hlocks, decide_True by done.
    pose proof (undo_all_names (rev (t_changes t)) (e_heap (t_e t)) l) as Hn.
    rewrite <- rollbackLoop_heap, Hr in Hn.
    destruct (e_heap (t_e (rollbackLoop (rev (t_changes t)) t)) !! l) as [r'|];
      [|done].
    simpl in *. injection Hn as Hn _. rewrite Hn, lookup_empty.
    eexists. split; [reflexivity|]. simpl. by rewrite insert_empty.
Qed.

(** ** Rollback and Commit *)

(** X5. A second [Rollback] is a no-op: [Rollback] leaves a transaction
    that [Rollback] leaves as it is. *)
Theorem Rollback_twice (t : Transaction) :
  Rollback (Rollback t) = Rollback t.
Proof.
  destruct (t_err t) as [cause|] eqn:Herr.
  { assert (Rollback t = t) as Hsame by (unfold Rollback, aborted; by rewrite Herr).
    by rewrite !Hsame. }
  destruct (Rollback_result t Herr) as (Hc & Hl & He).
  rewrite (Rollback_active (Rollback t) He), Hc. simpl.
  rewrite (Rollback_active t Herr).
  unfold unlock. simpl. by rewrite map_to_list_empty.
Qed.

(** X6. After [Commit] on a transaction whose latch is empty, the
    transaction is terminated: its log and its lock map are empty and every
    later call, a second [Commit] included, is answered with the error that
    wraps "transaction committed" and changes nothing. *)
Theorem Commit_terminates (t : Transaction) (op : Operation) :
  t_err t = None →
  t_changes (Commit t).2 = []
  ∧ t_locks (Commit t).2 = ∅
  ∧ run' op (Commit t).2 = Some (latched_answer op ErrCommitted, (Commit t).2)
  ∧ Commit (Commit t).2 = (Err (ErrAborted ErrCommitted), (Commit t).2).
Proof.
  intros Herr.
  assert (t_err (Commit t).2 = Some ErrCommitted) as Hlatch.
  { unfold Commit. by rewrite (aborted_active t Herr). }
  split; [|split; [|split]].
  - unfold Commit. by rewrite (aborted_active t Herr).
  - unfold Commit. by rewrite (aborted_active t Herr).
  - by apply run_latched.
  - unfold Commit at 1. unfold aborted. by rewrite Hlatch.
Qed.

(** ** Walks over a predicate *)

Lemma subnode_trans (p q r : Predicate) : subnode p q → subnode q r → subnode p r.
Proof.
  intros Hpq Hqr. induction Hqr; [done| |].
  - by apply subnode_left.
  - by apply subnode_right.
Qed.

Lemma recAppendPredicates_app (rname : string) (p : Predicate)
    (predicates : list Predicate) :
  recAppendPredicates rname p predicates
  = predicates ++ recAppendPredicates rname p [].
Proof.
  revert predicates.
  induction p as [relation attribute op value lp rp IHl IHr]
    using Predicate_children_ind.
  intros predicates. simpl. case_decide; [done|].
  destruct lp as [lp|], rp as [rp|].
  - rewrite (IHr rp eq_refl), (IHl lp eq_refl).
    rewrite (IHr rp eq_refl (recAppendPredicates rname lp [])).
    by rewrite app_assoc.
  - by apply IHl.
  - by apply IHr.
  - by rewrite app_nil_r.
Qed.

(** X7. [recAppendPredicates] only appends to the scanner; what it appends
    are nodes of the predicate whose [Relation()] is the name of the
    scanner's relation; and it appends at least one whenever the predicate
    has such a node. *)
Theorem recAppendPredicates_collects (rname : string) (p : Predicate)
    (predicates : list Predicate) :
  recAppendPredicates rname p predicates
  = predicates ++ recAppendPredicates rname p []
  ∧ (∀ q, q ∈ recAppendPredicates rname p [] →
          subnode q p ∧ p_Relation q = rname)
  ∧ ((∃ q, subnode q p ∧ p_Relation q = rname) ↔
     recAppendPredicates rname p [] ≠ []).
Proof.
  split; [apply recAppendPredicates_app|].
  induction p as [relation attribute op value lp rp IHl IHr]
    using Predicate_children_ind.
  simpl. destruct (decide (relation = rname)) as [Heq|Hne].
  { split.
    - intros q ->%list_elem_of_singleton. split; [constructor|done].
    - split; [done|]. intros _. eexists. split; [constructor|done]. }
  assert (∀ q, subnode q (MkPredicate relation attribute op value lp rp) →
               p_Relation q = rname →
               (∃ p', lp = Some p' ∧ subnode q p') ∨ (∃ p', rp = Some p' ∧ subnode q p'))
    as Hbelow.
  { intros q Hq Hrel. inversion Hq; subst; [done| |]; eauto. }
  destruct lp as [lp|], rp as [rp|].
  - destruct (IHl lp eq_refl) as [Hl1 Hl2], (IHr rp eq_refl) as [Hr1 Hr2].
    rewrite recAppendPredicates_app. split.
    + intros q [Hq|Hq]%elem_of_app.
      * destruct (Hl1 q Hq). split; [by apply subnode_left|done].
      * destruct (Hr1 q Hq). split; [by apply subnode_right|done].
    + split.
      * intros (q & Hq & Hrel) Hnil. apply app_eq_nil in Hnil as [Hnl Hnr].
        destruct (Hbelow q Hq Hrel) as [(p' & [= <-] & Hp')|(p' & [= <-] & Hp')].
        -- apply Hl2; [|done]. eauto.
        -- apply Hr2; [|done]. eauto.
      * intros Hne'.
        destruct (recAppendPredicates rname lp []) as [|q0 ql] eqn:Hql.
        -- destruct (proj2 Hr2) as (q & Hq & Hrel); [done|].
           exists q. split; [by apply subnode_right|done].
        -- destruct (proj2 Hl2) as (q & Hq & Hrel); [done|].
           exists q. split; [by apply subnode_left|done].
  - destruct (IHl lp eq_refl) as [Hl1 Hl2]. split.
    + intros q Hq. destruct (Hl1 q Hq). split; [by apply subnode_left|done].
    + split.
      * intros (q & Hq & Hrel).
        destruct (Hbelow q Hq Hrel) as [(p' & [= <-] & Hp')|(p' & [=] & _)].
        apply Hl2. eauto.
      * intros Hne'. destruct (proj2 Hl2 Hne') as (q & Hq & Hrel).
        exists q. split; [by apply subnode_left|done].
  - destruct (IHr rp eq_refl) as [Hr1 Hr2]. split.
    + intros q Hq. destruct (Hr1 q Hq). split; [by apply subnode_right|done].
    + split.
      * intros (q & Hq & Hrel).
        destruct (Hbelow q Hq Hrel) as [(p' & [=] & _)|(p' & [= <-] & Hp')].
        apply Hr2. eauto.
      * intros Hne'. destruct (proj2 Hr2 Hne') as (q & Hq & Hrel).
        exists q. split; [by apply subnode_right|done].
  - split; [by intros q ?%elem_of_nil|]. split; [|done].
    intros (q & Hq & Hrel).
    destruct (Hbelow q Hq Hrel) as [(p' & [=] & _)|(p' & [=] & _)].
Qed.

Lemma recCanUseIndex_step (relName : string) (index : Index) (p : Predicate) :
  recCanUseIndex' relName index p =
    if (CanSourceWith index p).1 then Some ((CanSourceWith index p).2, p)
    else match (match p_Left p with
                | Some lp => recCanUseIndex' relName index lp
                | None => None
                end) with
         | Some found => Some found
         | None => match p_Right p with
                   | Some rp => recCanUseIndex' relName index rp
                   | None => None
                   end
         end.
Proof.
  destruct p as [relation attribute op value lp rp]. simpl.
  destruct (CanSourceWith index _) as [[|] cost]; simpl; [done|].
  by destruct lp, rp.
Qed.

(** X8. [recCanUseIndex] answers with a node of the predicate that
    [CanSourceWith] accepts, and with the cost that [CanSourceWith] gives
    for that node; it answers [(0, false, nil)] exactly when [CanSourceWith]
    accepts no node of the predicate; and its argument [relName] has no
    part in the answer. *)
Theorem recCanUseIndex_finds_node (relName : string) (index : Index) (p : Predicate) :
  (∀ cost p', recCanUseIndex' relName index p = Some (cost, p') →
     subnode p' p ∧ CanSourceWith index p' = (true, cost))
  ∧ (recCanUseIndex' relName index p = None ↔
     ∀ q, subnode q p → (CanSourceWith index q).1 = false)
  ∧ ∀ other, recCanUseIndex' other index p = recCanUseIndex' relName index p.
Proof.
  induction p as [relation attribute op value lp rp IHl IHr]
    using Predicate_children_ind.
  set (p := MkPredicate relation attribute op value lp rp).
  assert (∀ q, subnode q p →
               q = p ∨ (∃ p', lp = Some p' ∧ subnode q p')
               ∨ (∃ p', rp = Some p' ∧ subnode q p')) as Hbelow.
  { intros q Hq. inversion Hq; subst; eauto. }
  assert (∀ other, recCanUseIndex' other index p =
            if (CanSourceWith index p).1 then Some ((CanSourceWith index p).2, p)
            else match (match lp with
                        | Some lp => recCanUseIndex' relName index lp
                        | None => None
                        end) with
                 | Some found => Some found
                 | None => match rp with
                           | Some rp => recCanUseIndex' relName index rp
                           | None => None
                           end
                 end) as Hstep.
  { intros other. rewrite recCanUseIndex_step. simpl.
    destruct (CanSourceWith index p).1; [done|].
    destruct lp as [lp|], rp as [rp|]; simpl.
    - destruct (IHl lp eq_refl) as (_ & _ & ->), (IHr rp eq_refl) as (_ & _ & ->). done.
    - by destruct (IHl lp eq_refl) as (_ & _ & ->).
    - by destruct (IHr rp eq_refl) as (_ & _ & ->).
    - done. }
  split; [|split]; [| |intros other; by rewrite Hstep, (Hstep relName)].
  - intros cost p'. rewrite Hstep.
    destruct (CanSourceWith index p) as [ok cost0] eqn:Hcan. simpl.
    destruct ok; [intros [= <- <-]; split; [constructor|done]|].
    destruct lp as [lp|].
    + destruct (recCanUseIndex' relName index lp) as [[c q]|] eqn:Hl.
      * intros [= <- <-]. destruct (IHl lp eq_refl) as (H & _ & _).
        destruct (H c q Hl). split; [by apply subnode_left|done].
      * destruct rp as [rp|]; [|done]. intros Hr.
        destruct (IHr rp eq_refl) as (H & _ & _).
        destruct (H cost p' Hr). split; [by apply subnode_right|done].
    + destruct rp as [rp|]; [|done]. intros Hr.
      destruct (IHr rp eq_refl) as (H & _ & _).
      destruct (H cost p' Hr). split; [by apply subnode_right|done].
  - rewrite Hstep. split.
    + intros Hnone q Hq.
      destruct (CanSourceWith index p).1 eqn:Hcan; [done|].
      destruct (Hbelow q Hq) as [->|[(p' & -> & Hp')|(p' & -> & Hp')]].
      * done.
      * destruct (IHl p' eq_refl) as (_ & H & _). apply H; [|done].
        by destruct (recCanUseIndex' relName index p').
      * destruct (IHr p' eq_refl) as (_ & H & _). apply H; [|done].
        destruct lp as [lp|]; [|done].
        by destruct (recCanUseIndex' relName index lp).
    + intros Hall. rewrite (Hall p (subnode_here _)).
      assert (∀ p', lp = Some p' → recCanUseIndex' relName index p' = None) as Hl.
      { intros p' ->. destruct (IHl p' eq_refl) as (_ & H & _). apply H.
        intros q Hq. apply Hall. by apply subnode_left. }
      assert (∀ p', rp = Some p' → recCanUseIndex' relName index p' = None) as Hr.
      { intros p' ->. destruct (IHr p' eq_refl) as (_ & H & _). apply H.
        intros q Hq. apply Hall. by apply subnode_right. }
      destruct lp as [lp|]; [rewrite (Hl lp eq_refl)|];
        (destruct rp as [rp|]; [by rewrite (Hr rp eq_refl)|done]).
Qed.

(** ** Well-formed transactions *)

Lemma same_mutexes_is_Some (h h' : gmap loc Relation) (l : loc) :
  same_mutexes h h' → is_Some (h' !! l) → is_Some (h !! l).
Proof.
  intros H Hl. specialize (H l). destruct (h' !! l), (h !! l); by try done.
Qed.

Lemma locks_sound_transfer (t t' : Transaction) :
  locks_sound t → t_locks t' = t_locks t →
  same_mutexes (e_heap (t_e t)) (e_heap (t_e t')) → locks_sound t'.
Proof.
  intros Hsound Hlocks Hsame name l Hname. rewrite Hlocks in Hname.
  destruct (Hsound name l Hname) as (r & Hr & Hn & Hlk).
  specialize (Hsame l). rewrite Hr in Hsame.
  destruct (e_heap (t_e t') !! l) as [r'|]; [|done].
  injection Hsame as Hn' Hlk'. exists r'. split; [done|]. by rewrite Hn', Hlk'.
Qed.

Lemma heap_allocated_transfer (e e' : Engine) :
  heap_allocated e → same_mutexes (e_heap e) (e_heap e') →
  (e_next e ≤ e_next e')%nat → heap_allocated e'.
Proof.
  intros Halloc Hsame Hnext l r' Hr'.
  destruct (same_mutexes_is_Some (e_heap e) (e_heap e') l Hsame) as [r Hr];
    [by exists r'|].
  specialize (Halloc l r Hr). lia.
Qed.

Lemma well_formed_transfer (t t' : Transaction) :
  well_formed t → t_locks t' = t_locks t →
  same_mutexes (e_heap (t_e t)) (e_heap (t_e t')) →
  (e_next (t_e t) ≤ e_next (t_e t'))%nat → well_formed t'.
Proof.
  intros [Hs Ha] Hlocks Hsame Hnext. split.
  - by apply locks_sound_transfer with t.
  - by apply heap_allocated_transfer with (t_e t).
Qed.

Lemma same_mutexes_alter (f : Relation → Relation) (l : loc) (h : gmap loc Relation) :
  (∀ r, r_name (f r) = r_name r ∧ r_locked (f r) = r_locked r) →
  same_mutexes h (alter f l h).
Proof.
  intros Hf l'. rewrite lookup_alter. case_decide; [subst l'|done].
  destruct (h !! l) as [r|]; simpl; [|done]. by destruct (Hf r) as [-> ->].
Qed.

Lemma same_mutexes_trans (h1 h2 h3 : gmap loc Relation) :
  same_mutexes h1 h2 → same_mutexes h2 h3 → same_mutexes h1 h3.
Proof. intros H1 H2 l. by rewrite H2, H1. Qed.

Lemma lock_well_formed (l : loc) (t t1 : Transaction) :
  well_formed t → lock l t = Some t1 → well_formed t1.
Proof.
  intros [Hs Ha]. unfold lock. intros H.
  destruct (e_heap (t_e t) !! l) as [r|] eqn:Hr; simpl in H; [|done].
  destruct (t_locks t !! r_name r) as [held|] eqn:Hheld.
  { by injection H as <-. }
  destruct (r_locked r); [done|]. injection H as <-. split.
  - intros name l0. simpl. rewrite lookup_insert. case_decide as Hname.
    + intros [= <-]. exists (set_locked true r). by rewrite lookup_insert_eq.
    + intros Hl0. destruct (Hs name l0 Hl0) as (r0 & Hr0 & Hn0 & Hlk0).
      exists r0. rewrite lookup_insert_ne; [done|].
      intros <-. rewrite Hr in Hr0. injection Hr0 as <-. done.
  - intros l0 r0. simpl. rewrite lookup_insert. case_decide.
    + subst l0. intros _. by apply (Ha l r).
    + apply Ha.
Qed.

Lemma recLock_well_formed (schema : string) (p : Predicate)
    (relations relations' : gmap string loc) (t t' : Transaction) (res : option error) :
  well_formed t →
  recLock schema p relations t = Some (res, relations', t') → well_formed t'.
Proof.
  revert relations relations' t t' res.
  induction p as [relation attribute op value lp rp IHl IHr] using Predicate_children_ind.
  intros relations relations' t t' res Hwf. simpl.
  destruct (Engine_schema (t_e t) schema) as [s|err]; [|by intros [= _ _ <-]].
  set (here := if decide (relation ≠ "") then _ else _).
  assert (Hhere : ∀ e1 r1 t1, here = Some (e1, r1, t1) → well_formed t1).
  { subst here. intros e1 r1 t1. case_decide; [|by intros [= _ _ <-]].
    destruct (Schema_Relation s relation) as [r|err]; [|by intros [= _ _ <-]].
    destruct (lock r t) as [tl|] eqn:Hlock; simpl; [|done].
    intros [= _ _ <-]. by eapply lock_well_formed. }
  destruct here as [[[[err1|] r1] t1]|]; [| |done].
  { intros [= _ _ <-]. by eapply Hhere. }
  pose proof (Hhere _ _ _ eq_refl) as H1.
  set (on_left := match lp with Some q => _ | None => _ end).
  assert (Hleft : ∀ e2 r2 t2, on_left = Some (e2, r2, t2) → well_formed t2).
  { subst on_left. intros e2 r2 t2. destruct lp as [q|]; [|by intros [= _ _ <-]].
    intros H. by eapply IHl. }
  destruct on_left as [[[[err2|] r2] t2]|]; [| |done].
  { intros [= _ _ <-]. by eapply Hleft. }
  pose proof (Hleft _ _ _ eq_refl) as H2.
  destruct rp as [q|].
  - intros H. by eapply IHr.
  - by intros [= _ _ <-].
Qed.

Lemma lockSelectors_well_formed (s : gmap string loc) (selectors : list Selector)
    (relations relations' : gmap string loc) (t t' : Transaction) (res : option error) :
  well_formed t →
  lockSelectors s selectors relations t = Some (res, relations', t') → well_formed t'.
Proof.
  revert relations t. induction selectors as [|sel rest IH]; intros relations t Hwf; simpl.
  - by intros [= _ _ <-].
  - destruct (Schema_Relation s (s_Relation sel)) as [r|err]; [|by intros [= _ _ <-]].
    destruct (lock r t) as [tl|] eqn:Hlock; simpl; [|done].
    intros H. eapply IH; [|done]. by eapply lock_well_formed.
Qed.

Lemma rollbackLoop_next (back : list Change) (t : Transaction) :
  e_next (t_e (rollbackLoop back t)) = e_next (t_e t).
Proof.
  revert t. induction back as [|b rest IH]; intros t; simpl; [done|].
  rewrite IH. simpl.
  destruct b as [current l|schema [c|] [o|]]; simpl; try done;
    unfold rollbackRelationChange; by destruct (e_heap (t_e t) !! _).
Qed.

(** A transaction that [Rollback] or [abort] leaves is well formed, for it
    holds no lock. *)
Lemma Rollback_well_formed (t : Transaction) :
  heap_allocated (t_e t) → t_err t = None → well_formed (Rollback t).
Proof.
  intros Ha Herr. rewrite (Rollback_active t Herr). split.
  - intros name l. simpl. by rewrite lookup_empty.
  - intros l r Hr.
    assert (is_Some (e_heap (t_e (unlock (rollbackLoop (rev (t_changes t)) t))) !! l))
      as Hl by by exists r.
    apply (proj1 (unlock_is_Some _ l)) in Hl. rewrite rollbackLoop_heap in Hl.
    apply (proj1 (undo_all_is_Some _ _ l)) in Hl. destruct Hl as [r0 Hr0].
    change (e_next (t_e (unlock (rollbackLoop (rev (t_changes t)) t))))
      with (e_next (t_e (rollbackLoop (rev (t_changes t)) t))).
    rewrite rollbackLoop_next. by apply (Ha l r0).
Qed.

Lemma abort_well_formed (err : error) (t : Transaction) :
  heap_allocated (t_e t) → t_err t = None → well_formed (abort err t).
Proof.
  intros Ha Herr. destruct (Rollback_well_formed t Ha Herr) as [Hs Ha'].
  by split.
Qed.

Lemma lock_err (l : loc) (t t1 : Transaction) :
  lock l t = Some t1 → t_err t1 = t_err t.
Proof. intros H. by destruct (lock_same_log l t t1 H) as (_ & ? & _). Qed.

(** X9. Every operation keeps a transaction well formed: each entry of the
    lock map still points to a relation of that name whose mutex is locked,
    so that [unlock] never calls [Unlock] on a mutex that is not locked,
    and no relation object lies beyond the allocator. *)
Theorem operations_keep_well_formed (op : Operation) (t t' : Transaction)
    (res : option error) :
  well_formed t →
  run' op t = Some (res, t') →
  well_formed t'.
Proof.
  intros Hwf Hrun.
  destruct (t_err t) as [cause|] eqn:Herr.
  { rewrite (run_latched _ _ _ _ op t cause Herr) in Hrun. by injection Hrun as _ <-. }
  pose proof Hwf as [Hsound Halloc].
  destruct op; simpl in Hrun.
  - (* Insert *)
    unfold Insert in Hrun. rewrite (aborted_active t Herr) in Hrun.
    destruct (Engine_schema (t_e t) schema) as [s|e1];
      [|injection Hrun as _ <-; by apply abort_well_formed].
    destruct (Schema_Relation s relation) as [l|e1];
      [|injection Hrun as _ <-; by apply abort_well_formed].
    destruct (lock l t) as [t1|] eqn:Hlock; simpl in Hrun; [|done].
    pose proof (lock_well_formed l t t1 Hwf Hlock) as Hwf1.
    pose proof (lock_err l t t1 Hlock) as Herr1. rewrite Herr in Herr1.
    destruct (e_heap (t_e t1) !! l) as [r1|] eqn:Hr1; simpl in Hrun; [|done].
    destruct (insertLoop relation (r_attributes r1) values []) as [[r attrs'] vs'].
    set (t2 := set_engine (set_heap (<[l:=set_attributes attrs' r1]> (e_heap (t_e t1)))
                                    (t_e t1)) t1) in *.
    assert (same_mutexes (e_heap (t_e t1)) (e_heap (t_e t2))) as Hsame2.
    { intros l'. simpl. rewrite lookup_insert. case_decide; [subst l'|done].
      by rewrite Hr1. }
    assert (well_formed t2) as Hwf2 by by apply (well_formed_transfer t1).
    destruct r as [vals|e1].
    2:{ injection Hrun as _ <-. apply abort_well_formed; [apply Hwf2|done]. }
    destruct (map_to_list vs').
    2:{ injection Hrun as _ <-. apply abort_well_formed; [apply Hwf2|done]. }
    injection Hrun as _ <-. apply (well_formed_transfer t2); [done|done| |simpl; lia].
    simpl. by apply same_mutexes_alter.
  - (* Query *)
    unfold Query in Hrun. rewrite (aborted_active t Herr) in Hrun.
    destruct (Engine_schema (t_e t) schema) as [s|e1];
      [|injection Hrun as _ <-; by apply abort_well_formed].
    destruct p as [p|]; [|injection Hrun as _ <-; by apply abort_well_formed].
    destruct (recLock schema p ∅ t) as [[[err1 relations1] t1]|] eqn:Hrec;
      simpl in Hrun; [|done].
    pose proof (recLock_well_formed _ _ _ _ _ _ _ Hwf Hrec) as Hwf1.
    destruct (recLock_same_log _ _ _ _ _ _ _ Hrec) as (_ & Herr1 & _).
    rewrite Herr in Herr1.
    destruct err1 as [e1|];
      [injection Hrun as _ <-; apply abort_well_formed; [apply Hwf1|done]|].
    destruct (lockSelectors s selectors relations1 t1) as [[[err2 relations] t2]|]
      eqn:Hsel; simpl in Hrun; [|done].
    pose proof (lockSelectors_well_formed _ _ _ _ _ _ _ Hwf1 Hsel) as Hwf2.
    destruct (lockSelectors_same_log _ _ _ _ _ _ _ Hsel) as (_ & Herr2 & _).
    rewrite Herr1 in Herr2.
    destruct err2 as [e2|];
      [injection Hrun as _ <-; apply abort_well_formed; [apply Hwf2|done]|].
    destruct (plan _ _ _ _ _ _ _ _) as [[n|e3]|]; simpl in Hrun;
      [|injection Hrun as _ <-; apply abort_well_formed; [apply Hwf2|done]|done].
    destruct (Exec (t_e t2) n) as [rows|e4]; injection Hrun as _ <-; [done|].
    apply abort_well_formed; [apply Hwf2|done].
  - (* CreateRelation *)
    unfold CreateRelation in Hrun. rewrite (aborted_active t Herr) in Hrun.
    unfold Engine_createRelation in Hrun.
    destruct (Engine_schema (t_e t) schemaName) as [s|e1];
      [|injection Hrun as _ <-; by apply abort_well_formed].
    destruct (s !! relName);
      [injection Hrun as _ <-; by apply abort_well_formed|].
    destruct (lock _ _) as [t1|] eqn:Hlock; simpl in Hrun; [|done].
    injection Hrun as _ <-. eapply lock_well_formed; [|done]. split.
    + intros name l0 Hl0. simpl in *.
      destruct (Hsound name l0 Hl0) as (r0 & Hr0 & Hn0 & Hlk0). exists r0.
      rewrite lookup_insert_ne; [done|]. intros <-.
      specialize (Halloc _ _ Hr0). lia.
    + intros l0 r0. simpl. rewrite lookup_insert. case_decide.
      * subst l0. lia.
      * intros Hr0. specialize (Halloc _ _ Hr0). lia.
  - (* DropRelation *)
    unfold DropRelation in Hrun. rewrite (aborted_active t Herr) in Hrun.
    unfold Engine_dropRelation in Hrun.
    destruct (Engine_schema (t_e t) schemaName) as [s|e1];
      [|injection Hrun as _ <-; by apply abort_well_formed].
    destruct (Schema_Relation s relName) as [l|e1];
      injection Hrun as _ <-; [done|by apply abort_well_formed].
  - (* Commit *)
    unfold Commit in Hrun. rewrite (aborted_active t Herr) in Hrun.
    injection Hrun as _ <-. split.
    + intros name l. simpl. by rewrite lookup_empty.
    + intros l r Hr.
      assert (is_Some (e_heap (t_e (unlock (set_changes [] t))) !! l))
        as Hl by by exists r.
      apply (proj1 (unlock_is_Some _ l)) in Hl. destruct Hl as [r0 Hr0].
      by apply (Halloc l r0).
  - (* Rollback *)
    injection Hrun as _ <-. by apply Rollback_well_formed.
Qed.

(** ** Stage (1) of [Query]: the relations of a query and their locks *)

Lemma locks_grow_refl (t : Transaction) : locks_grow t t.
Proof. done. Qed.

Lemma locks_grow_trans (t1 t2 t3 : Transaction) :
  locks_grow t1 t2 → locks_grow t2 t3 → locks_grow t1 t3.
Proof.
  intros [Hn1 Hl1] [Hn2 Hl2]. split.
  - intros l. by rewrite Hn2, Hn1.
  - intros name H. by apply Hl2, Hl1.
Qed.

Lemma locked_by_grows (t t' : Transaction) (l : loc) :
  locks_grow t t' → locked_by t l → locked_by t' l.
Proof.
  intros [Hn Hl] (r & Hr & Hheld). specialize (Hn l). rewrite Hr in Hn.
  destruct (e_heap (t_e t') !! l) as [r'|] eqn:Hr'; [|done]. injection Hn as Hn.
  exists r'. split; [done|]. rewrite Hn. by apply Hl.
Qed.

Lemma lock_grows (l : loc) (t t1 : Transaction) :
  lock l t = Some t1 → locks_grow t t1 ∧ locked_by t1 l.
Proof.
  intros Hlock. destruct (lock_names l t t1 Hlock) as (Hn & Hl & r & Hr & Hheld).
  split; [done|]. specialize (Hn l). rewrite Hr in Hn.
  destruct (e_heap (t_e t1) !! l) as [r'|] eqn:Hr'; [|done]. injection Hn as Hn.
  exists r'. split; [done|]. by rewrite Hn.
Qed.

Lemma insert_between (s relations : gmap string loc) (k : string) (l : loc) :
  relations ⊆ s → s !! k = Some l →
  relations ⊆ <[k:=l]> relations ∧ <[k:=l]> relations ⊆ s.
Proof.
  rewrite !map_subseteq_spec. intros Hsub Hk. split.
  - intros i x Hi. rewrite lookup_insert. case_decide; [subst i|done].
    apply Hsub in Hi. congruence.
  - intros i x. rewrite lookup_insert. case_decide; [subst i|by apply Hsub].
    by intros [= <-].
Qed.

Lemma same_log_schema (schema : string) (t t' : Transaction) :
  same_log t t' → Engine_schema (t_e t') schema = Engine_schema (t_e t) schema.
Proof. intros (_ & _ & Hs). unfold Engine_schema. by rewrite Hs. Qed.

Lemma subnode_widen (relation attribute : string) (op : Operator)
    (value : option Value) (lp rp lp' rp' : option Predicate) (q : Predicate) :
  lp' = None ∨ lp' = lp → rp' = None ∨ rp' = rp →
  subnode q (MkPredicate relation attribute op value lp' rp') →
  ∃ q', subnode q' (MkPredicate relation attribute op value lp rp)
        ∧ p_Relation q' = p_Relation q.
Proof.
  intros Hl Hr Hq. inversion Hq; subst.
  - eexists. split; [apply subnode_here|done].
  - destruct Hl as [?| <-]; [done|]. exists q. split; [by apply subnode_left|done].
  - destruct Hr as [?| <-]; [done|]. exists q. split; [by apply subnode_right|done].
Qed.

Lemma recLock_returns (schema : string) (s : gmap string loc) (p : Predicate)
    (relations relations' : gmap string loc) (t t' : Transaction) (res : option error) :
  Engine_schema (t_e t) schema = Ok s → relations ⊆ s →
  recLock schema p relations t = Some (res, relations', t') →
  recLock_post s p relations t res relations' t'.
Proof.
  revert relations relations' t t' res.
  induction p as [relation attribute op value lp rp IHl IHr] using Predicate_children_ind.
  intros relations relations' t t' res Hs Hsub.
  set (p := MkPredicate relation attribute op value lp rp).
  simpl. rewrite Hs.
  set (here := if decide (relation ≠ "") then _ else _).
  assert (Hhere : ∀ e1 r1 t1, here = Some (e1, r1, t1) →
            same_log t t1
            ∧ recLock_post s (MkPredicate relation attribute op value None None)
                           relations t e1 r1 t1).
  { subst here. intros e1 r1 t1. case_decide as Hnamed.
    2:{ intros [= <- <- <-]. split; [done|]. split; [done|]. split; [done|].
        split; [done|]. split; [done|]. split.
        - intros q Hq. inversion Hq; subst; done.
        - intros k Hk. by left. }
    unfold Schema_Relation. destruct (s !! relation) as [r|] eqn:Hr.
    2:{ intros [= <- <- <-]. split; [done|]. split; [done|]. split; [done|].
        eexists. split; [constructor|]. done. }
    destruct (lock r t) as [tl|] eqn:Hlock; simpl; [|done].
    intros [= <- <- <-]. destruct (lock_grows r t tl Hlock) as [Hgrow Hby].
    split; [by apply (lock_same_log r)|].
    split; [done|]. split; [apply (lock_same_data r t tl Hlock)|].
    destruct (insert_between s relations relation r Hsub Hr) as [Hsub1 Hsub2].
    split; [done|]. split; [done|]. split.
    - intros q Hq. inversion Hq; subst. intros _. exists r.
      simpl. by rewrite lookup_insert_eq.
    - intros k. rewrite lookup_insert. case_decide as Hk; [|by left].
      intros _. right. eexists. split; [constructor|]. simpl. by subst k. }
  destruct here as [[[[err1|] r1] t1]|]; [| |done].
  { intros [= <- <- <-].
    destruct (Hhere _ _ _ eq_refl) as (_ & Hg & Hd & q & Hq & Hn & Hmiss & ->).
    split; [done|]. split; [done|].
    destruct (subnode_widen _ _ _ _ lp rp _ _ q (or_introl eq_refl)
                (or_introl eq_refl) Hq) as (q' & Hq' & Hrel).
    exists q'. rewrite Hrel. by split. }
  destruct (Hhere _ _ _ eq_refl)
    as (Hlog1 & Hg1 & Hd1 & Hsub1 & Hsubs1 & Hby1 & Hkeys1).
  clear Hhere.
  assert (Engine_schema (t_e t1) schema = Ok s) as Hs1
    by by rewrite (same_log_schema schema t t1 Hlog1).
  set (on_left := match lp with Some q => _ | None => _ end).
  assert (Hleft : ∀ e2 r2 t2, on_left = Some (e2, r2, t2) →
            same_log t1 t2
            ∧ recLock_post s (MkPredicate relation attribute op value lp None)
                           relations t e2 r2 t2).
  { subst on_left. intros e2 r2 t2. destruct lp as [q|].
    2:{ intros [= <- <- <-]. split; [done|]. split; [done|]. split; [done|].
        split; [done|]. split; [done|]. done. }
    intros H. split; [by apply (recLock_same_log _ _ _ _ _ _ _ H)|].
    destruct (IHl q eq_refl _ _ _ _ _ Hs1 Hsubs1 H) as (Hg2 & Hd2 & Hpost).
    split; [by apply locks_grow_trans with t1|].
    split; [by etransitivity|].
    destruct e2 as [err2|].
    - destruct Hpost as (q0 & Hq0 & Hpost). exists q0. split; [|done].
      by apply subnode_left.
    - destruct Hpost as (Hsub2 & Hsubs2 & Hby2 & Hkeys2).
      split; [by etransitivity|]. split; [done|]. split.
      + intros q0 Hq0 Hn0. inversion Hq0; subst.
        * destruct (Hby1 _ (subnode_here _) Hn0) as (l & Hl & Hlby).
          exists l. split.
          -- revert Hsub2. rewrite map_subseteq_spec. intros Hsub2. by apply Hsub2.
          -- by apply locked_by_grows with t1.
        * by apply Hby2.
      + intros k Hk. destruct (Hkeys2 k Hk) as [Hk1|(q0 & Hq0 & Hk0)].
        * destruct (Hkeys1 k Hk1) as [?|(q0 & Hq0 & Hk0)]; [by left|].
          right.
          destruct (subnode_widen _ _ _ _ (Some q) None _ _ q0 (or_introl eq_refl)
                      (or_introl eq_refl) Hq0) as (q' & Hq' & Hrel).
          exists q'. rewrite Hrel. by split.
        * right. exists q0. split; [by apply subnode_left|done]. }
  destruct on_left as [[[[err2|] r2] t2]|]; [| |done].
  { intros [= <- <- <-].
    destruct (Hleft _ _ _ eq_refl) as (_ & Hg & Hd & q & Hq & Hpost).
    split; [done|]. split; [done|].
    destruct (subnode_widen _ _ _ _ lp rp _ _ q (or_intror eq_refl)
                (or_introl eq_refl) Hq) as (q' & Hq' & Hrel).
    exists q'. rewrite Hrel. by split. }
  destruct (Hleft _ _ _ eq_refl)
    as (Hlog2 & Hg2 & Hd2 & Hsub2 & Hsubs2 & Hby2 & Hkeys2).
  clear Hleft.
  assert (Engine_schema (t_e t2) schema = Ok s) as Hs2
    by by rewrite (same_log_schema schema t1 t2 Hlog2).
  destruct rp as [q|].
  2:{ intros [= <- <- <-]. by split. }
  intros H.
  destruct (IHr q eq_refl _ _ _ _ _ Hs2 Hsubs2 H) as (Hg3 & Hd3 & Hpost).
  split; [by apply locks_grow_trans with t2|].
  split; [by etransitivity|].
  destruct res as [err3|].
  - destruct Hpost as (q0 & Hq0 & Hpost). exists q0. split; [|done].
    by apply subnode_right.
  - destruct Hpost as (Hsub3 & Hsubs3 & Hby3 & Hkeys3).
    split; [by etransitivity|]. split; [done|]. split.
    + intros q0 Hq0 Hn0. inversion Hq0; subst.
      * destruct (Hby2 _ (subnode_here _) Hn0) as (l & Hl & Hlby).
        exists l. split.
        -- revert Hsub3. rewrite map_subseteq_spec. intros Hsub3. by apply Hsub3.
        -- by apply locked_by_grows with t2.
      * destruct (Hby2 q0) as (l & Hl & Hlby); [by apply subnode_left|done|].
        exists l. split.
        -- revert Hsub3. rewrite map_subseteq_spec. intros Hsub3. by apply Hsub3.
        -- by apply locked_by_grows with t2.
      * by apply Hby3.
    + intros k Hk. destruct (Hkeys3 k Hk) as [Hk2|(q0 & Hq0 & Hk0)].
      * destruct (Hkeys2 k Hk2) as [?|(q0 & Hq0 & Hk0)]; [by left|].
        right.
        destruct (subnode_widen _ _ _ _ lp (Some q) _ _ q0 (or_intror eq_refl)
                    (or_introl eq_refl) Hq0) as (q' & Hq' & Hrel).
        exists q'. rewrite Hrel. by split.
      * right. exists q0. split; [by apply subnode_right|done].
Qed.

Lemma lockSelectors_returns (s : gmap string loc) (selectors : list Selector)
    (relations relations' : gmap string loc) (t t' : Transaction) (res : option error) :
  relations ⊆ s →
  lockSelectors s selectors relations t = Some (res, relations', t') →
  locks_grow t t'
  ∧ same_data (e_heap (t_e t')) (e_heap (t_e t))
  ∧ match res with
    | None =>
        relations ⊆ relations' ∧ relations' ⊆ s
        ∧ (∀ sel, sel ∈ selectors →
             ∃ l, relations' !! s_Relation sel = Some l ∧ locked_by t' l)
        ∧ (∀ k, is_Some (relations' !! k) →
             is_Some (relations !! k) ∨ ∃ sel, sel ∈ selectors ∧ s_Relation sel = k)
    | Some err =>
        ∃ sel, sel ∈ selectors ∧ s !! s_Relation sel = None
               ∧ err = ErrRelationMissing (s_Relation sel)
    end.
Proof.
  revert relations t. induction selectors as [|sel rest IH]; intros relations t Hsub; simpl.
  { intros [= <- <- <-]. split; [done|]. split; [done|]. split; [done|].
    split; [done|]. split.
    - by intros sel ?%elem_of_nil.
    - intros k Hk. by left. }
  unfold Schema_Relation. destruct (s !! s_Relation sel) as [r|] eqn:Hr.
  2:{ intros [= <- <- <-]. split; [done|]. split; [done|].
      exists sel. split; [apply list_elem_of_here|done]. }
  destruct (lock r t) as [tl|] eqn:Hlock; simpl; [|done].
  destruct (lock_grows r t tl Hlock) as [Hgrow Hby].
  destruct (insert_between s relations (s_Relation sel) r Hsub Hr) as [Hsub1 Hsub2].
  intros H. destruct (IH _ _ Hsub2 H) as (Hg & Hd & Hpost).
  split; [by apply locks_grow_trans with tl|].
  split; [etransitivity; [done|apply (lock_same_data r t tl Hlock)]|].
  destruct res as [err|].
  - destruct Hpost as (sel0 & Hin & Hpost). exists sel0.
    split; [by apply list_elem_of_further|done].
  - destruct Hpost as (Hsub3 & Hsubs3 & Hby3 & Hkeys3).
    split; [by etransitivity|]. split; [done|]. split.
    + intros sel0 [->|Hin]%elem_of_cons; [|by apply Hby3].
      exists r. split.
      * revert Hsub3. rewrite map_subseteq_spec. intros Hsub3. apply Hsub3.
        by rewrite lookup_insert_eq.
      * by apply locked_by_grows with tl.
    + intros k Hk. destruct (Hkeys3 k Hk) as [Hk1|(sel0 & Hin & Hk0)].
      * revert Hk1. rewrite lookup_insert. case_decide as Hsel; [|by left].
        intros _. right. exists sel. split; [apply list_elem_of_here|done].
      * right. exists sel0. split; [by apply list_elem_of_further|done].
Qed.

(** X10. [recLock] called on the empty map, as [Query] calls it: when it
    returns no error, the map holds exactly the relations that the nodes of
    the predicate name (a node whose [Relation()] is empty names none), each
    one a relation of the schema and under a lock of the transaction; when
    it returns an error, a node names a relation that the schema lacks. It
    changes no row and no index, gives up no lock, and leaves the log and
    the latch as they are. *)
Theorem recLock_locks_named_relations (schema : string) (s : gmap string loc)
    (p : Predicate) (relations' : gmap string loc) (t t' : Transaction)
    (res : option error) :
  Engine_schema (t_e t) schema = Ok s →
  recLock schema p ∅ t = Some (res, relations', t') →
  same_log t t' ∧ locks_grow t t'
  ∧ same_data (e_heap (t_e t')) (e_heap (t_e t))
  ∧ match res with
    | None =>
        (∀ name, is_Some (relations' !! name) ↔
                 name ≠ "" ∧ ∃ q, subnode q p ∧ p_Relation q = name)
        ∧ (∀ name l, relations' !! name = Some l →
                     s !! name = Some l ∧ locked_by t' l)
    | Some err =>
        ∃ q, subnode q p ∧ p_Relation q ≠ "" ∧ s !! p_Relation q = None
             ∧ err = ErrRelationMissing (p_Relation q)
    end.
Proof.
  intros Hs Hrec. split; [by apply (recLock_same_log _ _ _ _ _ _ _ Hrec)|].
  destruct (recLock_returns schema s p ∅ relations' t t' res Hs
              (map_empty_subseteq s) Hrec) as (Hg & Hd & Hpost).
  split; [done|]. split; [done|]. destruct res as [err|]; [done|].
  destruct Hpost as (_ & Hsubs & Hby & Hkeys). split.
  - intros name. split.
    + intros Hname. destruct (Hkeys name Hname) as [Hempty|(q & Hq & Hrel & Hn)].
      * rewrite lookup_empty in Hempty. by destruct Hempty.
      * split; [done|]. by exists q.
    + intros (Hn & q & Hq & <-). destruct (Hby q Hq Hn) as (l & Hl & _).
      by exists l.
  - intros name l Hl. split.
    + revert Hsubs. rewrite map_subseteq_spec. intros Hsubs. by apply Hsubs.
    + assert (is_Some (relations' !! name)) as Hname by by exists l.
      destruct (Hkeys name Hname) as [Hempty|(q & Hq & Hrel & Hn)].
      * rewrite lookup_empty in Hempty. by destruct Hempty.
      * subst name. destruct (Hby q Hq Hn) as (l' & Hl' & Hlby). congruence.
Qed.

(** X11. A [Query] that returns rows ran on an open transaction, with a
    predicate, in a schema that exists. It leaves the log, the latch, the
    schemas, the rows and the indexes as they were, and gives up no lock.
    The relations it planned over are those that the predicate and the
    selectors name, all of them relations of the schema and under a lock of
    the transaction when it returns. *)
Theorem Query_success_locks_and_keeps_data (schema : string)
    (selectors : list Selector) (p : option Predicate) (joiners : list Joiner)
    (range : gmap string loc → list (string * loc)) (t t' : Transaction)
    (rows : list string * list Tuple) :
  Query' schema selectors p joiners range t = Some (Ok rows, t') →
  ∃ s p0 relations n,
    t_err t = None ∧ Engine_schema (t_e t) schema = Ok s ∧ p = Some p0
    ∧ same_log t t' ∧ locks_grow t t'
    ∧ same_data (e_heap (t_e t')) (e_heap (t_e t))
    ∧ (∀ name, is_Some (relations !! name) ↔
         (name ≠ "" ∧ ∃ q, subnode q p0 ∧ p_Relation q = name)
         ∨ ∃ sel, sel ∈ selectors ∧ s_Relation sel = name)
    ∧ (∀ name l, relations !! name = Some l →
         s !! name = Some l ∧ locked_by t' l)
    ∧ plan' (range relations) (e_heap (t_e t')) selectors p0 joiners = Some (Ok n)
    ∧ Exec (t_e t') n = Ok rows.
Proof.
  unfold Query, aborted. destruct (t_err t) as [cause|] eqn:Herr; [done|].
  destruct (Engine_schema (t_e t) schema) as [s|e1] eqn:Hs; [|done].
  destruct p as [p0|]; [|done].
  destruct (recLock schema p0 ∅ t) as [[[err1 relations1] t1]|] eqn:Hrec;
    simpl; [|done].
  destruct err1 as [e1|]; [done|].
  destruct (lockSelectors s selectors relations1 t1) as [[[err2 relations] t2]|]
    eqn:Hsel; simpl; [|done].
  destruct err2 as [e2|]; [done|].
  destruct (plan _ _ _ _ _ _ _ _) as [[n|e3]|] eqn:Hplan; simpl; [|done|done].
  destruct (Exec (t_e t2) n) as [rows'|e4] eqn:Hexec; [|done].
  intros [= <- <-]. exists s, p0, relations, n.
  destruct (recLock_returns schema s p0 ∅ relations1 t t1 None Hs
              (map_empty_subseteq s) Hrec) as (Hg1 & Hd1 & _ & Hsubs1 & Hby1 & Hkeys1).
  destruct (lockSelectors_returns s selectors relations1 relations t1 t2 None
              Hsubs1 Hsel) as (Hg2 & Hd2 & Hsub2 & Hsubs2 & Hby2 & Hkeys2).
  pose proof (recLock_same_log _ _ _ _ _ _ _ Hrec) as Hlog1.
  pose proof (lockSelectors_same_log _ _ _ _ _ _ _ Hsel) as Hlog2.
  split; [done|]. split; [done|]. split; [done|].
  split; [by apply same_log_trans with t1|].
  split; [by apply locks_grow_trans with t1|].
  split; [by etransitivity|].
  assert (∀ name, is_Some (relations !! name) →
            (name ≠ "" ∧ ∃ q, subnode q p0 ∧ p_Relation q = name)
            ∨ ∃ sel, sel ∈ selectors ∧ s_Relation sel = name) as Hkeys.
  { intros name Hname. destruct (Hkeys2 name Hname) as [Hk1|?]; [|by right].
    destruct (Hkeys1 name Hk1) as [Hempty|(q & Hq & Hrel & Hn)].
    - rewrite lookup_empty in Hempty. by destruct Hempty.
    - left. split; [done|]. by exists q. }
  assert (∀ name, (name ≠ "" ∧ ∃ q, subnode q p0 ∧ p_Relation q = name)
                  ∨ (∃ sel, sel ∈ selectors ∧ s_Relation sel = name) →
            ∃ l, relations !! name = Some l ∧ locked_by t2 l) as Hlocked.
  { intros name [(Hn & q & Hq & <-)|(sel & Hin & <-)].
    - destruct (Hby1 q Hq Hn) as (l & Hl & Hlby). exists l. split.
      + revert Hsub2. rewrite map_subseteq_spec. intros Hsub2. by apply Hsub2.
      + by apply locked_by_grows with t1.
    - by apply Hby2. }
  split; [|split; [|done]].
  - intros name. split; [apply Hkeys|].
    intros Hname. destruct (Hlocked name Hname) as (l & Hl & _). by exists l.
  - intros name l Hl. split.
    + revert Hsubs2. rewrite map_subseteq_spec. intros Hsubs2. by apply Hsubs2.
    + assert (is_Some (relations !! name)) as Hname by by exists l.
      destruct (Hlocked name (Hkeys name Hname)) as (l' & Hl' & Hlby). congruence.
Qed.

(** ** Stages (2) and (3) of [Query]: sources and scanners *)

Lemma chooseIndex_returns (rname : string) (indexes : list Index) (p : Predicate)
    (sources sources' : gmap string Source) (sourceCost sourceCost' : Z) :
  chooseIndex' rname indexes p sources sourceCost = (sources', sourceCost') →
  (∀ k, k ≠ rname → sources' !! k = sources !! k)
  ∧ (sources' !! rname = sources !! rname
     ∨ ∃ index cost p' src,
         index ∈ indexes
         ∧ recCanUseIndex' rname index p = Some (cost, p')
         ∧ NewHashIndexSource index p' = Ok src
         ∧ sources' !! rname = Some src).
Proof.
  revert sources sourceCost.
  induction indexes as [|index rest IH]; intros sources sourceCost; simpl.
  { intros [= <- <-]. split; [done|by left]. }
  assert (∀ s0 c0, chooseIndex' rname rest p s0 c0 = (sources', sourceCost') →
            s0 = sources ∨ (∃ cost p' src,
                recCanUseIndex' rname index p = Some (cost, p')
                ∧ NewHashIndexSource index p' = Ok src
                ∧ s0 = <[rname := src]> sources) →
            (∀ k, k ≠ rname → sources' !! k = sources !! k)
            ∧ (sources' !! rname = sources !! rname
               ∨ ∃ index0 cost p' src,
                   index0 ∈ index :: rest
                   ∧ recCanUseIndex' rname index0 p = Some (cost, p')
                   ∧ NewHashIndexSource index0 p' = Ok src
                   ∧ sources' !! rname = Some src)) as Hstep.
  { intros s0 c0 H Hs0. destruct (IH _ _ H) as (Hframe & Hname). split.
    - intros k Hk. rewrite Hframe by done.
      destruct Hs0 as [->|(cost & p' & src & _ & _ & ->)]; [done|].
      by rewrite lookup_insert_ne.
    - destruct Hname as [Hsame|(index0 & cost & p' & src & Hin & Hcan & Hnew & Hsrc)].
      + destruct Hs0 as [->|(cost & p' & src & Hcan & Hnew & ->)]; [by left|].
        right. exists index, cost, p', src. split; [apply list_elem_of_here|].
        split; [done|]. split; [done|]. by rewrite Hsame, lookup_insert_eq.
      + right. exists index0, cost, p', src. split; [by apply list_elem_of_further|].
        done. }
  destruct (recCanUseIndex' rname index p) as [[cost p']|] eqn:Hcan.
  2:{ intros H. apply (Hstep _ _ H). by left. }
  destruct ((sourceCost =? 0)%Z || (cost <? sourceCost)%Z).
  2:{ intros H. apply (Hstep _ _ H). by left. }
  destruct (NewHashIndexSource index p') as [newsrc|err] eqn:Hnew.
  2:{ intros H. apply (Hstep _ _ H). by left. }
  intros H. apply (Hstep _ _ H). right. by exists cost, p', newsrc.
Qed.

Lemma visited_further (x : string * loc) (rels : list (string * loc))
    (h : gmap loc Relation) (name : string) (l : loc) (r : Relation) :
  visited rels h name l r → visited (x :: rels) h name l r.
Proof.
  intros ((k & Hk) & Hr). split; [|done]. exists k. by apply list_elem_of_further.
Qed.

Lemma valid_source_further (x : string * loc) (rels : list (string * loc))
    (h : gmap loc Relation) (p : Predicate) (name : string) (src : Source) :
  valid_source' rels h p name src → valid_source' (x :: rels) h p name src.
Proof.
  intros (l & r & Hv & Hsrc). exists l, r. split; [by apply visited_further|done].
Qed.

Lemma chooseSources_returns (rels : list (string * loc)) (h : gmap loc Relation)
    (p : Predicate) (sources0 : gmap string Source) (sourceCost0 : Z) :
  (∀ k l, (k, l) ∈ rels → is_Some (h !! l)) →
  ∃ sources sourceCost,
    chooseSources' rels h p sources0 sourceCost0 = Some (sources, sourceCost)
    ∧ (∀ name, is_Some (sources !! name) ↔
         is_Some (sources0 !! name) ∨ ∃ l r, visited rels h name l r)
    ∧ (∀ name src, sources !! name = Some src →
         sources0 !! name = Some src ∨ valid_source' rels h p name src).
Proof.
  revert sources0 sourceCost0.
  induction rels as [|[k l] rest IH]; intros sources0 sourceCost0 Hheap; simpl.
  { exists sources0, sourceCost0. split; [done|]. split.
    - intros name. split; [by left|]. intros [?|(l & r & (k & Hk) & _)]; [done|].
      by apply elem_of_nil in Hk.
    - intros name src Hsrc. by left. }
  destruct (Hheap k l (list_elem_of_here _ _)) as [r Hr]. rewrite Hr. simpl.
  destruct (chooseIndex' (r_name r) (r_indexes r) p sources0 sourceCost0)
    as [sources1 sourceCost1] eqn:Hchoose.
  destruct (chooseIndex_returns _ _ _ _ _ _ _ Hchoose) as (Hframe & Hname).
  set (sources2 := match sources1 !! r_name r with
                   | Some _ => sources1
                   | None => <[r_name r := SeqScan l]> sources1
                   end).
  assert (visited ((k, l) :: rest) h (r_name r) l r) as Hvisited.
  { split; [|done]. exists k. apply list_elem_of_here. }
  assert (∀ name, is_Some (sources2 !! name) ↔
            is_Some (sources0 !! name) ∨ name = r_name r) as Hkeys2.
  { intros name. subst sources2. destruct (decide (name = r_name r)) as [->|Hne].
    - split; [by right|]. intros _.
      destruct (sources1 !! r_name r) eqn:H1; [by rewrite H1|].
      by rewrite lookup_insert_eq.
    - assert (sources1 !! name = sources0 !! name) as H1 by by apply Hframe.
      destruct (sources1 !! r_name r).
      + rewrite H1. split; [by left|]. by intros [?|?].
      + rewrite lookup_insert_ne by done. rewrite H1.
        split; [by left|]. by intros [?|?]. }
  assert (∀ name src, sources2 !! name = Some src →
            sources0 !! name = Some src
            ∨ valid_source' ((k, l) :: rest) h p name src) as Hvalid2.
  { intros name src. subst sources2. destruct (decide (name = r_name r)) as [->|Hne].
    - destruct (sources1 !! r_name r) as [src1|] eqn:H1.
      + rewrite H1. intros [= <-].
        destruct Hname as [Hsame|(index & cost & p' & src & Hin & Hcan & Hnew & Hsrc)].
        * left. by rewrite <- Hsame.
        * right. exists l, r. split; [done|]. right.
          exists index, cost, p'. injection Hsrc as <-. done.
      + rewrite lookup_insert_eq. intros [= <-]. right. exists l, r. by split; [|left].
    - assert (sources1 !! name = sources0 !! name) as H1 by by apply Hframe.
      destruct (sources1 !! r_name r).
      + rewrite H1. by left.
      + rewrite lookup_insert_ne by done. rewrite H1. by left. }
  destruct (IH sources2 sourceCost1) as (sources & sourceCost & Hret & Hkeys & Hvalid).
  { intros k' l' Hin. apply (Hheap k' l'). by apply list_elem_of_further. }
  exists sources, sourceCost. split; [done|]. split.
  - intros name. rewrite Hkeys, Hkeys2. split.
    + intros [[?| ->]|(l' & r' & Hv)]; [by left| |].
      * right. by exists l, r.
      * right. exists l', r'. by apply visited_further.
    + intros [?|(l' & r' & (k' & Hk') & Hr' & Hn')]; [by left; left|].
      apply elem_of_cons in Hk' as [[= -> ->]|Hk'].
      * left. right. rewrite Hr in Hr'. by injection Hr' as <-.
      * right. exists l', r'. split; [by exists k'|done].
  - intros name src Hsrc. destruct (Hvalid name src Hsrc) as [H2|Hv].
    + by apply Hvalid2.
    + right. by apply valid_source_further.
Qed.

(** X12. Stage (2) of [Query], on relations that exist: the loop gives a
    source to every relation it visits and to no other name, and the source
    filed under a name is the sequential scan of a visited relation of that
    name or was built by [NewHashIndexSource] from one of the indexes of
    such a relation and a node of the predicate that [recCanUseIndex] found
    for that index. *)
Theorem chooseSources_gives_valid_sources (rels : list (string * loc))
    (h : gmap loc Relation) (p : Predicate) :
  (∀ k l, (k, l) ∈ rels → is_Some (h !! l)) →
  ∃ sources sourceCost,
    chooseSources' rels h p ∅ 0%Z = Some (sources, sourceCost)
    ∧ (∀ name, is_Some (sources !! name) ↔ ∃ l r, visited rels h name l r)
    ∧ (∀ name src, sources !! name = Some src → valid_source' rels h p name src).
Proof.
  intros Hheap.
  destruct (chooseSources_returns rels h p ∅ 0%Z Hheap)
    as (sources & sourceCost & Hret & Hkeys & Hvalid).
  exists sources, sourceCost. split; [done|]. split.
  - intros name. rewrite Hkeys. split; [|by right].
    intros [Hempty|?]; [|done]. rewrite lookup_empty in Hempty. by destruct Hempty.
  - intros name src Hsrc. destruct (Hvalid name src Hsrc) as [Hempty|?]; [|done].
    by rewrite lookup_empty in Hempty.
Qed.

Lemma visited_or_not (rels : list (string * loc)) (h : gmap loc Relation)
    (name : string) :
  (∃ l r, visited rels h name l r) ∨ ¬ (∃ l r, visited rels h name l r).
Proof.
  induction rels as [|[k l] rest IH].
  { right. intros (l & r & (k & Hk) & _). by apply elem_of_nil in Hk. }
  destruct IH as [(l' & r' & Hv)|Hrest].
  { left. exists l', r'. by apply visited_further. }
  destruct (h !! l) as [r|] eqn:Hr.
  - destruct (decide (r_name r = name)) as [Hname|Hname].
    + left. exists l, r. split; [|done]. exists k. apply list_elem_of_here.
    + right. intros (l' & r' & (k' & Hk') & Hr' & Hn').
      apply elem_of_cons in Hk' as [[= -> ->]|Hk'].
      * rewrite Hr in Hr'. injection Hr' as <-. by apply Hname.
      * apply Hrest. exists l', r'. split; [by exists k'|done].
  - right. intros (l' & r' & (k' & Hk') & Hr' & Hn').
    apply elem_of_cons in Hk' as [[= -> ->]|Hk'].
    + by rewrite Hr in Hr'.
    + apply Hrest. exists l', r'. split; [by exists k'|done].
Qed.

Lemma buildScanners_returns (rels : list (string * loc)) (h : gmap loc Relation)
    (p : Predicate) (sources : gmap string Source) (scanners0 : gmap string Scanner) :
  (∀ name l r, visited rels h name l r → is_Some (sources !! name)) →
  (∀ k l, (k, l) ∈ rels → is_Some (h !! l)) →
  ∃ scanners,
    buildScanners rels h p sources scanners0 = Some scanners
    ∧ (∀ name, (∃ l r, visited rels h name l r) →
         scanners !! name =
           (λ src, mkScanner src (recAppendPredicates name p [])) <$> sources !! name)
    ∧ (∀ name, ¬ (∃ l r, visited rels h name l r) →
         scanners !! name = scanners0 !! name).
Proof.
  revert scanners0.
  induction rels as [|[k l] rest IH]; intros scanners0 Hsources Hheap; simpl.
  { exists scanners0. split; [done|]. split; [|done].
    intros name (l & r & (k & Hk) & _). by apply elem_of_nil in Hk. }
  destruct (Hheap k l (list_elem_of_here _ _)) as [r Hr]. rewrite Hr. simpl.
  assert (visited ((k, l) :: rest) h (r_name r) l r) as Hvisited.
  { split; [|done]. exists k. apply list_elem_of_here. }
  destruct (Hsources _ _ _ Hvisited) as [src Hsrc]. rewrite Hsrc. simpl.
  destruct (IH (<[r_name r := mkScanner src (recAppendPredicates (r_name r) p [])]>
                  scanners0)) as (scanners & Hret & Hin & Hout).
  { intros name l' r' Hv. apply (Hsources name l' r'). by apply visited_further. }
  { intros k' l' Hk'. apply (Hheap k' l'). by apply list_elem_of_further. }
  exists scanners. split; [done|]. split.
  - intros name Hv. destruct (visited_or_not rest h name) as [Hrest|Hrest].
    { by apply Hin. }
    rewrite (Hout name Hrest).
    destruct Hv as (l' & r' & (k' & Hk') & Hr' & Hn').
    apply elem_of_cons in Hk' as [[= -> ->]|Hk'].
    + rewrite Hr in Hr'. injection Hr' as <-. subst name.
      by rewrite lookup_insert_eq, Hsrc.
    + exfalso. apply Hrest. exists l', r'. split; [by exists k'|done].
  - intros name Hv. rewrite Hout.
    + apply lookup_insert_ne. intros <-. apply Hv. by exists l, r.
    + intros (l' & r' & Hv'). apply Hv. exists l', r'. by apply visited_further.
Qed.

(** X13. Stages (2) and (3) of [Query] together, on relations that exist:
    after the loop that chooses the sources, the loop that builds the
    scanners finds a source for every relation it visits, so that it never
    passes a missing source to [NewRelationScanner]. Each visited relation
    gets one scanner, filed under its name, on the source chosen for that
    name and with the predicates that [recAppendPredicates] collects for
    it; no other name gets a scanner. *)
Theorem scanners_cover_visited_relations (rels : list (string * loc))
    (h : gmap loc Relation) (p : Predicate) :
  (∀ k l, (k, l) ∈ rels → is_Some (h !! l)) →
  ∃ sources sourceCost scanners,
    chooseSources' rels h p ∅ 0%Z = Some (sources, sourceCost)
    ∧ buildScanners rels h p sources ∅ = Some scanners
    ∧ (∀ name, is_Some (scanners !! name) ↔ ∃ l r, visited rels h name l r)
    ∧ (∀ name sc, scanners !! name = Some sc →
         sources !! name = Some (sc_source sc)
         ∧ valid_source' rels h p name (sc_source sc)
         ∧ sc_predicates sc = recAppendPredicates name p []).
Proof.
  intros Hheap.
  destruct (chooseSources_returns rels h p ∅ 0%Z Hheap)
    as (sources & sourceCost & Hret & Hkeys & Hvalid).
  destruct (buildScanners_returns rels h p sources ∅) as (scanners & Hbuild & Hin & Hout);
    [|done|].
  { intros name l r Hv. apply Hkeys. right. by exists l, r. }
  exists sources, sourceCost, scanners. split; [done|]. split; [done|]. split.
  - intros name. split.
    + intros Hname. destruct (visited_or_not rels h name) as [?|Hv]; [done|].
      rewrite (Hout name Hv), lookup_empty in Hname. by destruct Hname.
    + intros Hv. rewrite (Hin name Hv), fmap_is_Some. apply Hkeys. by right.
  - intros name sc Hsc. destruct (visited_or_not rels h name) as [Hv|Hv].
    2:{ by rewrite (Hout name Hv), lookup_empty in Hsc. }
    rewrite (Hin name Hv) in Hsc.
    destruct (sources !! name) as [src|] eqn:Hsrc; simpl in Hsc; [|done].
    injection Hsc as <-. simpl. split; [done|]. split; [|done].
    destruct (Hvalid name src Hsrc) as [Hempty|?]; [|done].
    by rewrite lookup_empty in Hempty.
Qed.

(** ** Joiners: scanners as children, then the tree *)

(** X14. The loop that assigns the scanners to the joiners: when every
    joiner finds a scanner for its two sides, each joiner keeps its names
    and its predicate and gets the scanners of these names as its children;
    otherwise the error names the side of the first joiner, left side
    first, for which there is no scanner. *)
Theorem assignScanners_sets_children (scanners : gmap string Scanner)
    (joiners : list Joiner) :
  match assignScanners scanners joiners with
  | Ok joiners' =>
      Forall2 (λ j j', same_join j j'
                 ∧ ∃ scl scr, scanners !! j_Left j = Some scl
                     ∧ scanners !! j_Right j = Some scr
                     ∧ j_leftNode j' = Some (ScannerNode scl)
                     ∧ j_rightNode j' = Some (ScannerNode scr))
              joiners joiners'
  | Err err =>
      ∃ i j, joiners !! i = Some j
        ∧ (∀ i' j', (i' < i)%nat → joiners !! i' = Some j' →
             is_Some (scanners !! j_Left j') ∧ is_Some (scanners !! j_Right j'))
        ∧ ((scanners !! j_Left j = None ∧ err = ErrNoScanner (j_Left j))
           ∨ (is_Some (scanners !! j_Left j) ∧ scanners !! j_Right j = None
              ∧ err = ErrNoScanner (j_Right j)))
  end.
Proof.
  induction joiners as [|j rest IH]; simpl; [constructor|].
  destruct (scanners !! j_Left j) as [scl|] eqn:Hl.
  2:{ exists 0%nat, j. split; [done|]. split; [intros; lia|]. left. by rewrite Hl. }
  destruct (scanners !! j_Right j) as [scr|] eqn:Hr.
  2:{ exists 0%nat, j. split; [done|]. split; [intros; lia|]. right.
      by rewrite Hl, Hr. }
  destruct (assignScanners scanners rest) as [rest'|err].
  - constructor; [|done]. split; [done|]. exists scl, scr. by rewrite Hl, Hr.
  - destruct IH as (i & j0 & Hj0 & Hbefore & Herr). exists (S i), j0.
    split; [done|]. split; [|done].
    intros [|i'] j' Hlt Hj'; simpl in Hj'.
    + injection Hj' as <-. by rewrite Hl, Hr.
    + apply (Hbefore i' j'); [lia|done].
Qed.

Lemma first_naming_snoc (name : string) (js : list Joiner) (j : Joiner) :
  first_naming name (js ++ [j]) =
    match first_naming name js with
    | Some k => Some k
    | None => if decide (names_relation name j) then Some j else None
    end.
Proof.
  unfold first_naming. rewrite filter_app.
  destruct (filter (names_relation name) js) as [|k ks]; simpl; [|done].
  rewrite filter_cons, filter_nil. by case_decide.
Qed.

Lemma buildTree_children (joiners : list Joiner) :
  ∀ (earlier : list Joiner) (seen : gmap string Node) (joiners' : list Joiner),
  (∀ name, seen !! name = j_Node <$> first_naming name earlier) →
  buildTree joiners seen = Some joiners' →
  length joiners' = length joiners
  ∧ ∀ i j j', joiners !! i = Some j → joiners' !! i = Some j' →
      same_join j j'
      ∧ j_leftNode j' =
          tree_child (j_Left j) (earlier ++ take i joiners') (j_leftNode j)
      ∧ j_rightNode j' =
          tree_child (j_Right j) (earlier ++ take i joiners') (j_rightNode j).
Proof.
  induction joiners as [|n rest IH]; intros earlier seen joiners' Hseen; simpl.
  { intros [= <-]. split; [done|]. by intros i j j' Hj. }
  assert (∀ n' seen' rest',
            same_join n n' →
            j_leftNode n' = tree_child (j_Left n) earlier (j_leftNode n) →
            j_rightNode n' = tree_child (j_Right n) earlier (j_rightNode n) →
            (∀ name, seen' !! name = j_Node <$> first_naming name (earlier ++ [n'])) →
            buildTree rest seen' = Some rest' →
            length (n' :: rest') = length (n :: rest)
            ∧ ∀ i j j', (n :: rest) !! i = Some j → (n' :: rest') !! i = Some j' →
                same_join j j'
                ∧ j_leftNode j' =
                    tree_child (j_Left j) (earlier ++ take i (n' :: rest'))
                               (j_leftNode j)
                ∧ j_rightNode j' =
                    tree_child (j_Right j) (earlier ++ take i (n' :: rest'))
                               (j_rightNode j)) as Hstep.
  { intros n' seen' rest' Hjoin Hleft Hright Hseen' Hrest.
    destruct (IH _ _ _ Hseen' Hrest) as (Hlen & Hall). split; [simpl; by rewrite Hlen|].
    intros [|i] j j' Hj Hj'; simpl in Hj, Hj'.
    - injection Hj as <-. injection Hj' as <-. simpl. by rewrite app_nil_r.
    - simpl. rewrite cons_middle, (assoc_L (++) earlier [n'] (take i rest')).
      by apply Hall. }
  pose proof (Hseen (j_Left n)) as Hl. pose proof (Hseen (j_Right n)) as Hr.
  destruct (seen !! j_Left n) as [childl|] eqn:Hsl;
    destruct (seen !! j_Right n) as [childr|] eqn:Hsr.
  - destruct (buildTree rest seen) as [rest'|] eqn:Hrest; simpl; [|done].
    intros [= <-].
    destruct (first_naming (j_Left n) earlier) as [kl|] eqn:Hfl; [|done].
    destruct (first_naming (j_Right n) earlier) as [kr|] eqn:Hfr; [|done].
    injection Hl as ->. injection Hr as ->.
    apply (Hstep _ seen); [done| | | |done].
    + unfold tree_child. by rewrite Hfl.
    + unfold tree_child. by rewrite Hfr.
    + intros name. rewrite first_naming_snoc, Hseen.
      destruct (first_naming name earlier) as [k|] eqn:Hfn; [done|].
      case_decide as Hnames; [|done].
      destruct Hnames as [Hname|Hname]; simpl in Hname; subst name; congruence.
  - destruct (buildTree rest _) as [rest'|] eqn:Hrest; simpl; [|done].
    intros [= <-].
    destruct (first_naming (j_Left n) earlier) as [kl|] eqn:Hfl; [|done].
    destruct (first_naming (j_Right n) earlier) as [kr|] eqn:Hfr; [done|].
    injection Hl as ->.
    apply (Hstep _ (<[j_Right n := j_Node (j_SetLeft (j_Node kl) n)]> seen));
      [done| | | |done].
    + unfold tree_child. by rewrite Hfl.
    + unfold tree_child. by rewrite Hfr.
    + intros name. rewrite first_naming_snoc, lookup_insert.
      case_decide as Hname.
      * subst name. rewrite Hfr. rewrite decide_True; [done|]. by right.
      * rewrite Hseen. destruct (first_naming name earlier) as [k|] eqn:Hfn; [done|].
        case_decide as Hnames; [|done].
        destruct Hnames as [Hn|Hn]; simpl in Hn; subst name; congruence.
  - destruct (buildTree rest _) as [rest'|] eqn:Hrest; simpl; [|done].
    intros [= <-].
    destruct (first_naming (j_Left n) earlier) as [kl|] eqn:Hfl; [done|].
    destruct (first_naming (j_Right n) earlier) as [kr|] eqn:Hfr; [|done].
    injection Hr as ->.
    apply (Hstep _ (<[j_Left n := j_Node (j_SetRight (j_Node kr) n)]> seen));
      [done| | | |done].
    + unfold tree_child. by rewrite Hfl.
    + unfold tree_child. by rewrite Hfr.
    + intros name. rewrite first_naming_snoc, lookup_insert.
      case_decide as Hname.
      * subst name. rewrite Hfl. rewrite decide_True; [done|]. by left.
      * rewrite Hseen. destruct (first_naming name earlier) as [k|] eqn:Hfn; [done|].
        case_decide as Hnames; [|done].
        destruct Hnames as [Hn|Hn]; simpl in Hn; subst name; congruence.
  - case_decide as Hsides; [done|].
    destruct (buildTree rest _) as [rest'|] eqn:Hrest; simpl; [|done].
    intros [= <-].
    destruct (first_naming (j_Left n) earlier) as [kl|] eqn:Hfl; [done|].
    destruct (first_naming (j_Right n) earlier) as [kr|] eqn:Hfr; [done|].
    apply (Hstep _ (<[j_Right n := j_Node n]> (<[j_Left n := j_Node n]> seen)));
      [done| | | |done].
    + unfold tree_child. by rewrite Hfl.
    + unfold tree_child. by rewrite Hfr.
    + intros name. rewrite first_naming_snoc, !lookup_insert.
      case_decide as Hname.
      * subst name. rewrite Hfr. rewrite decide_True; [done|]. by right.
      * case_decide as Hname'.
        -- subst name. rewrite Hfl. rewrite decide_True; [done|]. by left.
        -- rewrite Hseen.
           destruct (first_naming name earlier) as [k|] eqn:Hfn; [done|].
           case_decide as Hnames; [|done].
           destruct Hnames as [Hn|Hn]; simpl in Hn; subst name; congruence.
Qed.

Lemma buildTree_returns (joiners : list Joiner) (seen : gmap string Node) :
  Forall (λ j, j_Left j ≠ j_Right j) joiners →
  is_Some (buildTree joiners seen).
Proof.
  revert seen. induction joiners as [|n rest IH]; intros seen Hsides; simpl; [done|].
  apply Forall_cons in Hsides as [Hn Hrest].
  destruct (seen !! j_Left n), (seen !! j_Right n).
  - destruct (IH seen Hrest) as [rest' ->]. done.
  - destruct (IH (<[j_Right n := j_Node (j_SetLeft n0 n)]> seen) Hrest) as [rest' ->].
    done.
  - destruct (IH (<[j_Left n := j_Node (j_SetRight n0 n)]> seen) Hrest) as [rest' ->].
    done.
  - rewrite decide_False by done.
    destruct (IH (<[j_Right n := j_Node n]> (<[j_Left n := j_Node n]> seen)) Hrest)
      as [rest' ->]. done.
Qed.

(** X15. The loop that builds the tree, on joiners that each join two
    different relations: it returns, every joiner keeps its names and its
    predicate, and for each side the child is the first earlier joiner that
    names the relation of that side, as the loop left it, when there is one;
    otherwise the child stays the one the joiner had. The entry of [seen] is
    never replaced by a later, bigger join. *)
Theorem buildTree_links_first_joiner (joiners : list Joiner) :
  Forall (λ j, j_Left j ≠ j_Right j) joiners →
  ∃ joiners',
    buildTree joiners ∅ = Some joiners'
    ∧ length joiners' = length joiners
    ∧ ∀ i j j', joiners !! i = Some j → joiners' !! i = Some j' →
        same_join j j'
        ∧ j_leftNode j' = tree_child (j_Left j) (take i joiners') (j_leftNode j)
        ∧ j_rightNode j' = tree_child (j_Right j) (take i joiners') (j_rightNode j).
Proof.
  intros Hsides. destruct (buildTree_returns joiners ∅ Hsides) as [joiners' Htree].
  exists joiners'. split; [done|].
  apply (buildTree_children joiners [] ∅ joiners'); [|done].
  intros name. by rewrite lookup_empty.
Qed.

(** ** The plan of a query *)

Lemma assignScanners_names (scanners : gmap string Scanner) (joiners : list Joiner) :
  match assignScanners scanners joiners with
  | Ok joiners' => Forall2 same_join joiners joiners'
  | Err err =>
      ∃ j, j ∈ joiners
           ∧ (err = ErrNoScanner (j_Left j) ∨ err = ErrNoScanner (j_Right j))
  end.
Proof.
  induction joiners as [|j rest IH]; simpl; [constructor|].
  destruct (scanners !! j_Left j) as [scl|].
  2:{ exists j. split; [apply list_elem_of_here|by left]. }
  destruct (scanners !! j_Right j) as [scr|].
  2:{ exists j. split; [apply list_elem_of_here|by right]. }
  destruct (assignScanners scanners rest) as [rest'|err].
  - by constructor.
  - destruct IH as (j0 & Hin & Herr). exists j0.
    split; [by apply list_elem_of_further|done].
Qed.

Lemma same_join_sides (j j' : Joiner) :
  same_join j j' → j_Left j ≠ j_Right j → j_Left j' ≠ j_Right j'.
Proof. intros (-> & -> & _). done. Qed.

(** X16. The plan of a query over relations that exist, with joiners that
    each join two different relations and a sort that only reorders them:
    planning returns. Without joiners the plan is the selector node over
    the scanner of the one relation of the query, and the error "no join,
    but got n scan" with n different from 1 otherwise. With joiners the
    plan is the selector node over a joiner that has the names and the
    predicate of one of the joiners given, and the only error is that of a
    joiner for whose side there is no scanner. *)
Theorem plan_returns (rels : list (string * loc)) (h : gmap loc Relation)
    (selectors : list Selector) (p : Predicate) (joiners : list Joiner) :
  (∀ k l, (k, l) ∈ rels → is_Some (h !! l)) →
  (∀ js, sortJoiners js ≡ₚ js) →
  Forall (λ j, j_Left j ≠ j_Right j) joiners →
  ∃ res,
    plan' rels h selectors p joiners = Some res
    ∧ match res, joiners with
      | Ok n, [] =>
          ∃ name sc,
            n = SelectorNode selectors (ScannerNode sc)
            ∧ (∀ name', (∃ l r, visited rels h name' l r) ↔ name' = name)
            ∧ sc_predicates sc = recAppendPredicates name p []
      | Ok n, _ :: _ =>
          ∃ j j', j ∈ joiners ∧ same_join j j'
                  ∧ n = SelectorNode selectors (j_Node j')
      | Err err, [] => ∃ k, err = ErrNoJoin k ∧ k ≠ 1%nat
      | Err err, _ :: _ =>
          ∃ j, j ∈ joiners
               ∧ (err = ErrNoScanner (j_Left j) ∨ err = ErrNoScanner (j_Right j))
      end.
Proof.
  intros Hheap Hsort Hsides. unfold plan.
  destruct (chooseSources_returns rels h p ∅ 0%Z Hheap)
    as (sources & sourceCost & -> & Hkeys & Hvalid). simpl.
  destruct (buildScanners_returns rels h p sources ∅)
    as (scanners & -> & Hin & Hout); [|done|].
  { intros name l r Hv. apply Hkeys. right. by exists l, r. }
  simpl. pose proof (assignScanners_names scanners joiners) as Hassign.
  destruct (assignScanners scanners joiners) as [joiners1|err].
  2:{ exists (Err err). split; [done|]. destruct joiners as [|j0 rest]; [|done].
      destruct Hassign as (j & Hj & _). by apply elem_of_nil in Hj. }
  assert (Forall (λ j, j_Left j ≠ j_Right j) (sortJoiners joiners1)) as Hsides1.
  { rewrite (Hsort joiners1). clear -Hassign Hsides.
    induction Hassign as [|j j' js js' Hj _ IH]; [done|].
    apply Forall_cons in Hsides as [Hs Hrest].
    constructor; [by apply (same_join_sides j)|by apply IH]. }
  destruct (buildTree_returns (sortJoiners joiners1) ∅ Hsides1) as [joiners2 Htree].
  rewrite Htree. simpl.
  destruct (buildTree_children (sortJoiners joiners1) [] ∅ joiners2)
    as (Hlen & Hall); [|done|].
  { intros name. by rewrite lookup_empty. }
  destruct joiners as [|j0 rest].
  - destruct (map_to_list scanners) as [|[k v] [|kv more]] eqn:Hlist.
    + exists (Err (ErrNoJoin (size scanners))). split; [done|].
      exists (size scanners). split; [done|].
      apply map_to_list_empty_iff in Hlist as ->. by rewrite map_size_empty.
    + exists (Ok (SelectorNode selectors (ScannerNode v))). split; [done|].
      assert (scanners = {[k := v]}) as Hsingle.
      { rewrite <- (list_to_map_to_list scanners), Hlist. simpl.
        by rewrite insert_empty. }
      assert (∀ name', (∃ l r, visited rels h name' l r) ↔ name' = k) as Honly.
      { intros name'. split.
        - intros Hv. pose proof (Hin name' Hv) as Hlook.
          assert (is_Some (sources !! name')) as [src Hsrc].
          { apply Hkeys. by right. }
          rewrite Hsrc, Hsingle in Hlook. simpl in Hlook.
          apply lookup_singleton_Some in Hlook as [-> _]. done.
        - intros ->. destruct (visited_or_not rels h k) as [?|Hv]; [done|].
          pose proof (Hout k Hv) as Hlook.
          by rewrite Hsingle, lookup_singleton_eq, lookup_empty in Hlook. }
      exists k, v. split; [done|]. split; [done|].
      assert (∃ l r, visited rels h k l r) as Hv by by apply Honly.
      pose proof (Hin k Hv) as Hlook.
      rewrite Hsingle, lookup_singleton_eq in Hlook.
      destruct (sources !! k) as [src|]; simpl in Hlook; [|done].
      by injection Hlook as ->.
    + exists (Err (ErrNoJoin (size scanners))). split; [done|].
      exists (size scanners). split; [done|].
      rewrite <- length_map_to_list, Hlist. done.
  - assert (length joiners2 = length (j0 :: rest)) as Hlen2.
    { rewrite Hlen, (Hsort joiners1). symmetry. by eapply Forall2_length. }
    destruct (last joiners2) as [j2|] eqn:Hlast.
    2:{ apply last_None in Hlast. by rewrite Hlast in Hlen2. }
    simpl. exists (Ok (SelectorNode selectors (j_Node j2))). split; [done|].
    rewrite last_lookup in Hlast.
    destruct (lookup_lt_is_Some_2 (sortJoiners joiners1) (pred (length joiners2)))
      as [j1 Hj1].
    { rewrite <- Hlen. by apply lookup_lt_Some in Hlast. }
    destruct (Hall _ _ _ Hj1 Hlast) as (Hjoin12 & _).
    assert (j1 ∈ joiners1) as Hj1in.
    { rewrite <- (Hsort joiners1). by eapply list_elem_of_lookup_2. }
    apply list_elem_of_lookup_1 in Hj1in as [i Hi].
    destruct (Forall2_lookup_r _ _ _ _ _ Hassign Hi) as (j & Hj & Hjoin01).
    exists j, j2. split; [by eapply list_elem_of_lookup_2|]. split; [|done].
    destruct Hjoin01 as (? & ? & ?), Hjoin12 as (? & ? & ?).
    repeat split; congruence.
Qed.

(** ** Insert: the tuple and the counters *)






(** ** Creating a relation, then looking it up *)

Lemma lock_unlocked (l : loc) (t : Transaction) (r : Relation) :
  e_heap (t_e t) !! l = Some r → r_locked r = false →
  ∃ t', lock l t = Some t' ∧ same_log t t'
    ∧ is_Some (t_locks t' !! r_name r)
    ∧ ∃ r', e_heap (t_e t') !! l = Some r'
        ∧ r_attributes r' = r_attributes r ∧ r_attrIndex r' = r_attrIndex r.
Proof.
  intros Hr Hfree. unfold lock. rewrite Hr. simpl.
  destruct (t_locks t !! r_name r) as [held|] eqn:Hheld.
  - exists t. split; [done|]. split; [done|]. split; [by rewrite Hheld|]. by exists r.
  - rewrite Hfree. eexists. split; [done|]. split; [done|]. simpl.
    split; [by rewrite lookup_insert_eq|].
    exists (set_locked true r). by rewrite lookup_insert_eq.
Qed.

(** X19. [CreateRelation] never waits for a lock, the relation being new.
    When it returns no error, the name was free before, [CheckRelation]
    answers true for it afterwards and [RelationAttribute] answers for it
    as [Attribute] does on the relation that [NewRelation] builds from the
    declaration; the transaction holds a lock under the name, and
    [CheckRelation] answers for every other name as before. *)
Theorem CreateRelation_then_lookups (schemaName relName : string)
    (attributes : list Attribute) (pk : list string) (t : Transaction) :
  ∃ res t',
    CreateRelation schemaName relName attributes pk t = Some (res, t')
    ∧ (res = None →
       CheckRelation schemaName relName t = false
       ∧ CheckRelation schemaName relName t' = true
       ∧ (∀ attrName,
            RelationAttribute schemaName relName attrName t' =
            Relation_Attribute (NewRelation schemaName relName attributes pk)
                               attrName)
       ∧ is_Some (t_locks t' !! relName)
       ∧ ∀ sch rel, (sch, rel) ≠ (schemaName, relName) →
           CheckRelation sch rel t' = CheckRelation sch rel t).
Proof.
  unfold CreateRelation, aborted. destruct (t_err t) as [cause|] eqn:Herr.
  { eexists _, _. split; [done|]. done. }
  unfold Engine_createRelation.
  destruct (Engine_schema (t_e t) schemaName) as [s|e1] eqn:Hs.
  2:{ eexists _, _. split; [done|]. done. }
  destruct (s !! relName) as [l0|] eqn:Hfree.
  { eexists _, _. split; [done|]. done. }
  match goal with
  | |- context [lock ?l ?t0] =>
      destruct (lock_unlocked l t0 (NewRelation schemaName relName attributes pk))
        as (t' & Hlock & (_ & Herr' & Hschemas) & Hheld & r' & Hr' & Hattrs & Hindex)
  end.
  { apply lookup_insert_eq. }
  { done. }
  exists None, t'. rewrite Hlock. split; [done|]. intros _.
  simpl in Herr', Hschemas, Hheld. rewrite Herr in Herr'.
  split; [|split; [|split; [|split]]].
  - unfold CheckRelation, aborted, Schema_Relation. by rewrite Herr, Hs, Hfree.
  - unfold CheckRelation, aborted, Schema_Relation, Engine_schema.
    by rewrite Herr', Hschemas, lookup_insert_eq, lookup_insert_eq.
  - intros attrName.
    unfold RelationAttribute, aborted, Schema_Relation, Engine_schema.
    rewrite Herr', Hschemas, lookup_insert_eq, lookup_insert_eq, Hr'. simpl.
    unfold Relation_Attribute. by rewrite Hattrs, Hindex.
  - done.
  - intros sch rel Hother.
    unfold CheckRelation, aborted, Schema_Relation, Engine_schema.
    rewrite Herr', Herr, Hschemas.
    destruct (decide (sch = schemaName)) as [->|Hsch].
    + rewrite lookup_insert_eq. unfold Engine_schema in Hs.
      destruct (e_schemas (t_e t) !! schemaName) as [s0|]; [|done].
      injection Hs as ->. rewrite lookup_insert_ne; [done|]. congruence.
    + by rewrite lookup_insert_ne.
Qed.

(** ** Truncate *)

(** X20. [Truncate] takes the mutex of the relation: on a relation under a
    lock of an open transaction it waits, and once the transaction has
    committed it returns, leaving the relation, under its name and with its
    attributes, without a row and with every index empty. *)
Theorem Truncate_waits_for_lock (t : Transaction) (name : string) (l : loc) :
  well_formed t → t_err t = None → t_locks t !! name = Some l →
  (∃ r, e_heap (t_e t) !! l = Some r ∧ Relation_Truncate r = None)
  ∧ ∃ r r', e_heap (t_e (Commit t).2) !! l = Some r
      ∧ Relation_Truncate r = Some r'
      ∧ r_name r' = name ∧ r_attributes r' = r_attributes r
      ∧ r_rows r' = []
      ∧ Forall2 (λ i i', i_name i' = i_name i ∧ i_tuples i' = [])
                (r_indexes r) (r_indexes r').
Proof.
  intros [Hsound _] Herr Hname.
  destruct (Hsound name l Hname) as (r & Hr & Hn & Hlocked). split.
  { exists r. split; [done|]. unfold Relation_Truncate. by rewrite Hlocked. }
  unfold Commit, aborted. rewrite Herr. simpl.
  exists (set_locked false r). eexists. split; [|split].
  - change (e_heap (t_e (unlock (set_changes [] t))) !! l = Some (set_locked false r)).
    rewrite unlock_heap, decide_True.
    + simpl. by rewrite Hr.
    + apply held_relations_lookup. by exists name.
  - done.
  - simpl. split; [done|]. split; [done|]. split; [done|].
    apply Forall2_fmap_r, Forall_Forall2_diag, Forall_forall. done.
Qed.

(** ** Locks are kept by relation name *)



End MoreProperties.

(** * Further runs *)

Import MoreSamples.

Lemma insertionStep_Permutation `{GV : GoValues} (less : Joiner → Joiner → bool)
    (j : Joiner) (front : list Joiner) :
  insertionStep less j front ≡ₚ j :: front.
Proof.
  induction front as [|prev before IH]; simpl; [done|].
  destruct (less j prev); [|done]. rewrite IH. apply Permutation_swap.
Qed.

(** The sort of the joiners only reorders them. *)
Lemma insertionSort_Permutation `{GV : GoValues} (less : Joiner → Joiner → bool)
    (joiners : list Joiner) :
  insertionSort less joiners ≡ₚ joiners.
Proof.
  unfold insertionSort. rewrite <- Permutation_rev.
  assert (∀ front, foldl (λ front j, insertionStep less j front) front joiners
                   ≡ₚ joiners ++ front) as Hfold.
  { induction joiners as [|j rest IH]; intros front; simpl; [done|].
    rewrite IH, insertionStep_Permutation. by rewrite Permutation_middle. }
  by rewrite Hfold, app_nil_r.
Qed.

Lemma engine_well_formed : well_formed (NewTransaction engine).
Proof.
  split.
  - intros name l. simpl. by rewrite lookup_empty.
  - intros l r. simpl. intros [<- _]%lookup_singleton_Some. lia.
Qed.

Lemma locked_well_formed : well_formed locked.
Proof. exact (lock_well_formed 0%nat _ _ engine_well_formed lock_account). Qed.

Lemma after_insert_open : t_err after_insert = None.
Proof. vm_compute; reflexivity. Qed.

Lemma after_insert_holds_account : t_locks after_insert !! "account" = Some 0%nat.
Proof. vm_compute; reflexivity. Qed.

Lemma after_insert_stores : e_heap (t_e after_insert) !! 0%nat = Some stored_account.
Proof. vm_compute; reflexivity. Qed.

Lemma engine2_public :
  Engine_schema (t_e (NewTransaction engine2)) "public" = Ok relations_ab.
Proof. vm_compute; reflexivity. Qed.

Lemma where_xy_locks :
  recLock "public" where_xy ∅ (NewTransaction engine2)
  = Some (None, relations_ab, after_where_locks).
Proof. vm_compute; reflexivity. Qed.

Lemma where_xy_query :
  Query HashIndex_CanSourceWith HashIndex_NewSource (insertionSort less) exec
        "public" [] (Some where_xy) [a_join_b] range_up (NewTransaction engine2)
  = Some (Ok ([], []), after_where_locks).
Proof. vm_compute; reflexivity. Qed.

Lemma rels_ab_exist (k : string) (l : loc) :
  (k, l) ∈ rels_ab → is_Some (e_heap engine2 !! l).
Proof.
  unfold rels_ab. intros Hin.
  apply elem_of_cons in Hin as [[= -> ->]|Hin]; [by eexists|].
  apply elem_of_cons in Hin as [[= -> ->]|Hin]; [by eexists|].
  by apply elem_of_nil in Hin.
Qed.

Lemma a_join_b_sides : Forall (λ j, j_Left j ≠ j_Right j) [a_join_b].
Proof. by repeat constructor. Qed.


Lemma locked_open : t_err locked = None.
Proof. vm_compute; reflexivity. Qed.

Lemma locked_holds_account : t_locks locked !! "account" = Some 0%nat.
Proof. vm_compute; reflexivity. Qed.

Lemma row1_run :
  run_op (CallInsert "public" "account" row1) (NewTransaction engine)
  = Some (None, after_insert).
Proof. vm_compute; reflexivity. Qed.

Lemma lock_twice_witness :
  lock 0%nat (NewTransaction engine) = Some locked
  ∧ lock 0%nat locked = Some locked.
Proof.
  split; [exact lock_account|].
  exact (lock_twice (GV := sqlValues) 0%nat (NewTransaction engine) locked lock_account).
Defined.

Lemma released_relation_can_be_locked_witness :
  t_err after_insert = None
  ∧ t_locks after_insert !! "account" = Some 0%nat
  ∧ e_heap (t_e after_insert) !! 0%nat = Some stored_account
  ∧ (∃ t1, lock 0%nat (NewTransaction (t_e (Commit after_insert).2)) = Some t1
           ∧ t_locks t1 = {[ r_name stored_account := 0%nat ]})
  ∧ (∃ t1, lock 0%nat (NewTransaction (t_e (Rollback after_insert))) = Some t1
           ∧ t_locks t1 = {[ r_name stored_account := 0%nat ]}).
Proof.
  split; [exact after_insert_open|]. split; [exact after_insert_holds_account|].
  split; [exact after_insert_stores|].
  exact (released_relation_can_be_locked (GV := sqlValues) after_insert "account"
           0%nat stored_account after_insert_open after_insert_holds_account
           after_insert_stores).
Defined.

Lemma Commit_terminates_witness :
  t_err after_insert = None
  ∧ t_changes (Commit after_insert).2 = []
  ∧ t_locks (Commit after_insert).2 = ∅
  ∧ run_op CallRollback (Commit after_insert).2
    = Some (latched_answer CallRollback ErrCommitted, (Commit after_insert).2)
  ∧ Commit (Commit after_insert).2
    = (Err (ErrAborted ErrCommitted), (Commit after_insert).2).
Proof.
  split; [exact after_insert_open|].
  exact (Commit_terminates HashIndex_CanSourceWith HashIndex_NewSource
           (insertionSort less) exec after_insert CallRollback after_insert_open).
Defined.

Lemma operations_keep_well_formed_witness :
  well_formed (NewTransaction engine)
  ∧ run_op (CallInsert "public" "account" row1) (NewTransaction engine)
    = Some (None, after_insert)
  ∧ well_formed after_insert.
Proof.
  split; [exact engine_well_formed|]. split; [exact row1_run|].
  exact (operations_keep_well_formed HashIndex_CanSourceWith HashIndex_NewSource
           (insertionSort less) exec (CallInsert "public" "account" row1)
           (NewTransaction engine) after_insert None engine_well_formed row1_run).
Defined.

Lemma recLock_locks_named_relations_witness :
  Engine_schema (t_e (NewTransaction engine2)) "public" = Ok relations_ab
  ∧ recLock "public" where_xy ∅ (NewTransaction engine2)
    = Some (None, relations_ab, after_where_locks)
  ∧ same_log (NewTransaction engine2) after_where_locks
  ∧ ∀ name l, relations_ab !! name = Some l →
      relations_ab !! name = Some l ∧ locked_by after_where_locks l.
Proof.
  destruct (recLock_locks_named_relations (GV := sqlValues) "public" relations_ab
              where_xy relations_ab (NewTransaction engine2) after_where_locks None
              engine2_public where_xy_locks) as (Hlog & _ & _ & _ & Hall).
  split; [exact engine2_public|]. split; [exact where_xy_locks|].
  split; [exact Hlog|exact Hall].
Defined.

Lemma Query_success_locks_and_keeps_data_witness :
  Query HashIndex_CanSourceWith HashIndex_NewSource (insertionSort less) exec
        "public" [] (Some where_xy) [a_join_b] range_up (NewTransaction engine2)
  = Some (Ok ([], []), after_where_locks)
  ∧ same_log (NewTransaction engine2) after_where_locks
  ∧ same_data (e_heap (t_e after_where_locks)) (e_heap engine2).
Proof.
  destruct (Query_success_locks_and_keeps_data HashIndex_CanSourceWith
              HashIndex_NewSource (insertionSort less) exec
              "public" [] (Some where_xy) [a_join_b] range_up
              (NewTransaction engine2) after_where_locks ([], []) where_xy_query)
    as (s & p0 & relations & n & _ & _ & _ & Hlog & _ & Hdata & _).
  split; [exact where_xy_query|]. split; [exact Hlog|exact Hdata].
Defined.

Lemma chooseSources_gives_valid_sources_witness :
  (∀ k l, (k, l) ∈ rels_ab → is_Some (e_heap engine2 !! l))
  ∧ ∃ sources sourceCost,
      chooseSources HashIndex_CanSourceWith HashIndex_NewSource
                    rels_ab (e_heap engine2) where_xy ∅ 0%Z
      = Some (sources, sourceCost)
      ∧ ∀ name src, sources !! name = Some src →
          valid_source HashIndex_CanSourceWith HashIndex_NewSource
                       rels_ab (e_heap engine2) where_xy name src.
Proof.
  split; [exact rels_ab_exist|].
  destruct (chooseSources_gives_valid_sources HashIndex_CanSourceWith
              HashIndex_NewSource rels_ab (e_heap engine2) where_xy rels_ab_exist)
    as (sources & sourceCost & Hret & _ & Hvalid).
  exists sources, sourceCost. split; [exact Hret|exact Hvalid].
Defined.

Lemma scanners_cover_visited_relations_witness :
  (∀ k l, (k, l) ∈ rels_ab → is_Some (e_heap engine2 !! l))
  ∧ ∃ sources sourceCost scanners,
      chooseSources HashIndex_CanSourceWith HashIndex_NewSource
                    rels_ab (e_heap engine2) where_xy ∅ 0%Z
      = Some (sources, sourceCost)
      ∧ buildScanners rels_ab (e_heap engine2) where_xy sources ∅ = Some scanners
      ∧ ∀ name, is_Some (scanners !! name) ↔
                ∃ l r, visited rels_ab (e_heap engine2) name l r.
Proof.
  split; [exact rels_ab_exist|].
  destruct (scanners_cover_visited_relations HashIndex_CanSourceWith
              HashIndex_NewSource rels_ab (e_heap engine2) where_xy rels_ab_exist)
    as (sources & sourceCost & scanners & Hsrc & Hsc & Hkeys & _).
  exists sources, sourceCost, scanners.
  split; [exact Hsrc|]. split; [exact Hsc|exact Hkeys].
Defined.

Lemma buildTree_links_first_joiner_witness :
  Forall (λ j, j_Left j ≠ j_Right j) [a_join_b]
  ∧ ∃ joiners', buildTree [a_join_b] ∅ = Some joiners'
                ∧ length joiners' = length [a_join_b].
Proof.
  split; [exact a_join_b_sides|].
  destruct (buildTree_links_first_joiner (GV := sqlValues) [a_join_b] a_join_b_sides)
    as (joiners' & Htree & Hlen & _).
  exists joiners'. split; [exact Htree|exact Hlen].
Defined.

Lemma plan_returns_witness :
  (∀ k l, (k, l) ∈ rels_ab → is_Some (e_heap engine2 !! l))
  ∧ (∀ js, insertionSort less js ≡ₚ js)
  ∧ Forall (λ j, j_Left j ≠ j_Right j) [a_join_b]
  ∧ ∃ res, plan HashIndex_CanSourceWith HashIndex_NewSource (insertionSort less)
                rels_ab (e_heap engine2) [] where_xy [a_join_b] = Some res.
Proof.
  split; [exact rels_ab_exist|]. split; [exact (insertionSort_Permutation less)|].
  split; [exact a_join_b_sides|].
  destruct (plan_returns HashIndex_CanSourceWith HashIndex_NewSource
              (insertionSort less) rels_ab (e_heap engine2) [] where_xy [a_join_b]
              rels_ab_exist (insertionSort_Permutation less) a_join_b_sides)
    as (res & Hplan & _).
  exists res. exact Hplan.
Defined.



Lemma Truncate_waits_for_lock_witness :
  well_formed locked
  ∧ t_err locked = None
  ∧ t_locks locked !! "account" = Some 0%nat
  ∧ ∃ r, e_heap (t_e locked) !! 0%nat = Some r ∧ Relation_Truncate r = None.
Proof.
  split; [exact locked_well_formed|]. split; [exact locked_open|].
  split; [exact locked_holds_account|].
  destruct (Truncate_waits_for_lock (GV := sqlValues) locked "account" 0%nat
              locked_well_formed locked_open locked_holds_account) as (Hwait & _).
  exact Hwait.
Defined.



